(** * ESPurna terminal module (code/espurna/terminal.cpp)

    A shallow embedding of the terminal commands, the single-slot DNS task,
    the serial drain loop and the MQTT / web-socket / HTTP adapters, followed
    by the properties established about them. *)

From Stdlib Require Import String Ascii List NArith ZArith Lia Bool Arith.
From Stdlib Require Import Permutation Sorted.
Import ListNotations.

Local Open Scope string_scope.

(** ** C strings and the Arduino [String] operations the module relies on *)

Module CString.

Definition LF : string := String (ascii_of_nat 10) EmptyString.
Definition CR : string := String (ascii_of_nat 13) EmptyString.
Definition CRLF : string := CR ++ LF.

(** [*s] of a NUL-terminated string: the terminator once the text ends. *)
Definition peek (s : string) : nat :=
  match s with
  | EmptyString => 0
  | String c _ => nat_of_ascii c
  end.

(** [s + 1], staying on the terminator. *)
Definition advance (s : string) : string :=
  match s with
  | EmptyString => EmptyString
  | String _ rest => rest
  end.

(** [&buffer[n]]. *)
Fixpoint drop (n : nat) (s : string) : string :=
  match n, s with
  | 0, _ => s
  | S _, EmptyString => EmptyString
  | S n', String _ rest => drop n' rest
  end.

(** The first [n] characters. *)
Fixpoint take (n : nat) (s : string) : string :=
  match n, s with
  | 0, _ => EmptyString
  | S _, EmptyString => EmptyString
  | S n', String c rest => String c (take n' rest)
  end.

(** <ctype.h> [tolower] in the C locale. *)
Definition tolower (c : nat) : nat :=
  if ((65 <=? c) && (c <=? 90))%nat then c + 32 else c.

(** <string.h> [strncmp]: at most [n] characters, stopping at the terminator. *)
Fixpoint strncmp (s1 s2 : string) (n : nat) : Z :=
  match n with
  | 0 => 0%Z
  | S n' =>
      let c1 := peek s1 in
      let c2 := peek s2 in
      if negb (c1 =? c2)%nat then (Z.of_nat c1 - Z.of_nat c2)%Z
      else if (c1 =? 0)%nat then 0%Z
      else strncmp (advance s1) (advance s2) n'
  end.

(** <strings.h> [strncasecmp] (and its [_P] flash variant): as [strncmp],
    on lower-cased characters. *)
Fixpoint strncasecmp (s1 s2 : string) (n : nat) : Z :=
  match n with
  | 0 => 0%Z
  | S n' =>
      let c1 := tolower (peek s1) in
      let c2 := tolower (peek s2) in
      if negb (c1 =? c2)%nat then (Z.of_nat c1 - Z.of_nat c2)%Z
      else if (c1 =? 0)%nat then 0%Z
      else strncasecmp (advance s1) (advance s2) n'
  end.

(** The string with every character lower-cased. *)
Fixpoint lower (s : string) : string :=
  match s with
  | EmptyString => EmptyString
  | String c rest => String (ascii_of_nat (tolower (nat_of_ascii c))) (lower rest)
  end.

(** [String::startsWith]. *)
Definition startsWith (s p : string) : bool := prefix p s.

(** [String::endsWith]: compares the tail of the buffer with the suffix. *)
Definition endsWith (s suffix : string) : bool :=
  if (String.length s <? String.length suffix)%nat then false
  else String.eqb (drop (String.length s - String.length suffix) s) suffix.

(** Decimal rendering of a small number, as [printf("%u")] does. *)
Fixpoint decimal_digits (fuel n : nat) (acc : string) : string :=
  match fuel with
  | 0 => acc
  | S fuel' =>
      let acc' := String (ascii_of_nat (48 + n mod 10)) acc in
      if (n / 10 =? 0)%nat then acc' else decimal_digits fuel' (n / 10) acc'
  end.

Definition decimal (n : nat) : string := decimal_digits (S n) n EmptyString.

End CString.

Import CString.

(** ** Output sinks

    A [Print] sink is recorded as the sequence of writes made through it.
    [terminalOK] and [terminalError] forward to [terminal::ok] and
    [terminal::error], which are defined outside this file: the first writes
    a fixed success marker, the second a fixed failure marker followed by the
    message, and they are recorded as such. *)

Inductive Write : Type :=
| Print (text : string)
| OK
| Error (message : string).

Definition Sink : Type := list Write.

Definition terminalOK (out : Sink) : Sink := (out ++ [OK])%list.
Definition terminalError (out : Sink) (message : string) : Sink :=
  (out ++ [Error message])%list.

(** ** lwIP types and constants used by the resolver interface *)

Definition err_t : Type := Z.
Definition ERR_OK : err_t := 0%Z.
Definition ERR_INPROGRESS : err_t := (-5)%Z.
Definition ERR_ARG : err_t := (-16)%Z.

Definition ip_addr_t : Type := Z.
Definition IPADDR_NONE : ip_addr_t := 4294967295%Z.

(** [IPAddress(addr).toString()]: the four octets in memory order. *)
Definition octet (a : ip_addr_t) (i : nat) : nat :=
  Z.to_nat (Z.land (Z.shiftr a (8 * Z.of_nat i)) 255).

Definition IPAddress_toString (a : ip_addr_t) : string :=
  decimal (octet a 0) ++ "." ++ decimal (octet a 1) ++ "."
  ++ decimal (octet a 2) ++ "." ++ decimal (octet a 3).

(** ** namespace dns: the single-slot hostname resolution task *)

Module Dns.

(** [FoundCallback] is a [std::function]; a closure is represented by what
    it does to the sink it captured, tagged with an identity so that its
    invocations can be observed. The [void* arg] parameter is always passed
    through untouched and never read, and is left out. *)
Record FoundCallback : Type := {
  cb_id : nat;
  cb_run : string -> option ip_addr_t -> Sink -> Sink
}.

Record Task : Type := {
  _hostname : string;
  _callback : FoundCallback;
  _addr : ip_addr_t
}.

Record Invocation : Type := {
  who : nat;
  name : string;
  addr : option ip_addr_t
}.

(** [task] is [internal::task] (the global [TaskPtr]); [invoked] logs every
    callback invocation, [lookups] every request handed to the resolver,
    and [sink] is the output the running command writes to. *)
Record World : Type := {
  task : option Task;
  invoked : list Invocation;
  lookups : list string;
  sink : Sink
}.

Definition idle : World :=
  {| task := None; invoked := []; lookups := []; sink := [] |}.

Definition set_task (t : option Task) (w : World) : World :=
  {| task := t; invoked := invoked w; lookups := lookups w; sink := sink w |}.

Definition set_sink (s : Sink) (w : World) : World :=
  {| task := task w; invoked := invoked w; lookups := lookups w; sink := s |}.

Definition log_lookup (h : string) (w : World) : World :=
  {| task := task w; invoked := invoked w;
     lookups := (lookups w ++ [h])%list; sink := sink w |}.

(** [_callback(name, addr, arg)]. *)
Definition call (cb : FoundCallback) (n : string) (a : option ip_addr_t)
    (w : World) : World :=
  {| task := task w;
     invoked := (invoked w ++ [{| who := cb_id cb; name := n; addr := a |}])%list;
     lookups := lookups w;
     sink := cb_run cb n a (sink w) |}.

(** [Task::found_callback(name, addr, arg)]. *)
Definition Task_found_callback (t : Task) (n : string) (a : option ip_addr_t)
    (w : World) : World :=
  call (_callback t) n a w.

(** [Task::found_callback()]: the task's own hostname and address. *)
Definition Task_found_callback_self (t : Task) (w : World) : World :=
  call (_callback t) (_hostname t) (Some (_addr t)) w.

(** [internal::found_callback], the completion handler given to the resolver. *)
Definition found_callback (n : string) (a : option ip_addr_t) (w : World) : World :=
  match task w with
  | Some t => set_task None (Task_found_callback t n a w)
  | None => w
  end.

Definition started (w : World) : bool :=
  match task w with
  | Some _ => true
  | None => false
  end.

Section Resolver.

(** [dns_gethostbyname(hostname, addr, found, arg)]: the result code and
    the contents of [*addr] afterwards. *)
Variable dns_gethostbyname : string -> ip_addr_t -> err_t * ip_addr_t.

Definition start (hostname : string) (callback : FoundCallback) (w : World) : World :=
  let t := {| _hostname := hostname; _callback := callback; _addr := IPADDR_NONE |} in
  let '(result, a) := dns_gethostbyname (_hostname t) (_addr t) in
  let t := {| _hostname := _hostname t; _callback := _callback t; _addr := a |} in
  let w := log_lookup hostname w in
  if (result =? ERR_OK)%Z then Task_found_callback_self t w
  else if (result =? ERR_INPROGRESS)%Z then set_task (Some t) w
  else w.

End Resolver.

(** What the network stack does with the resolver during later execution:
    a sequence of completion deliveries. *)
Definition Completion : Type := (string * option ip_addr_t)%type.

Definition deliver (c : Completion) (w : World) : World :=
  found_callback (fst c) (snd c) w.

Definition deliver_all (cs : list Completion) (w : World) : World :=
  fold_left (fun w c => deliver c w) cs w.

(** What may happen to the slot over time: the resolver delivers a
    completion, or some caller issues [start] and the resolver gives [reply]. *)
Inductive Step : Type :=
| Delivered (c : Completion)
| Started (reply : err_t * ip_addr_t) (hostname : string) (callback : FoundCallback).

Definition step (s : Step) (w : World) : World :=
  match s with
  | Delivered c => deliver c w
  | Started reply hostname callback => start (fun _ _ => reply) hostname callback w
  end.

Definition run (steps : list Step) (w : World) : World :=
  fold_left (fun w s => step s w) steps w.

(** The step is not a [start] passing the callback tagged [id]. *)
Definition not_started_with (id : nat) (s : Step) : Prop :=
  match s with
  | Delivered _ => True
  | Started _ _ callback => cb_id callback <> id
  end.

(** How many times the callback tagged [id] has been invoked. *)
Definition times_invoked (id : nat) (w : World) : nat :=
  List.length (filter (fun i => (who i =? id)%nat) (invoked w)).

End Dns.


(** ** printf conversions used by the commands *)

Module Printf.

(** Conversion of a value to [uint32_t]. *)
Definition u32 (z : Z) : Z := (z mod 4294967296)%Z.

(** Conversion of a value to [uint16_t]. *)
Definition u16 (z : Z) : Z := (z mod 65536)%Z.

Fixpoint unsigned_digits (fuel : nat) (z : Z) (acc : string) : string :=
  match fuel with
  | 0 => acc
  | S fuel' =>
      let acc' := String (ascii_of_nat (48 + Z.to_nat (z mod 10))) acc in
      if (z / 10 =? 0)%Z then acc' else unsigned_digits fuel' (z / 10) acc'
  end.

(** [%u], [%lu] and [%hu] of a value below 2^32. *)
Definition unsigned (z : Z) : string := unsigned_digits 10 z EmptyString.

(** [%d] of an [int]. *)
Definition signed (z : Z) : string :=
  if (z <? 0)%Z then "-" ++ unsigned (- z) else unsigned z.

Definition hex_digit (d : Z) : ascii :=
  if (d <? 10)%Z then ascii_of_nat (48 + Z.to_nat d)
  else ascii_of_nat (55 + Z.to_nat d).

Fixpoint hex_digits (fuel : nat) (z : Z) (acc : string) : string :=
  match fuel with
  | 0 => acc
  | S fuel' =>
      let acc' := String (hex_digit (z mod 16)) acc in
      if (z / 16 =? 0)%Z then acc' else hex_digits fuel' (z / 16) acc'
  end.

Fixpoint repeat_char (c : ascii) (n : nat) : string :=
  match n with
  | 0 => EmptyString
  | S n' => String c (repeat_char c n')
  end.

(** [%0wX] of a value below 2^32: upper-case digits, zeros up to the width. *)
Definition hex (width : nat) (z : Z) : string :=
  let digits := hex_digits 8 z EmptyString in
  repeat_char "0"%char (width - String.length digits) ++ digits.

(** [%-ws]: the text, then blanks up to the width. *)
Definition left_justified (width : nat) (text : string) : string :=
  text ++ repeat_char " "%char (width - String.length text).

End Printf.

(** ** namespace commands *)

Module Commands.

Import Dns.

(** [CommandContext]: [ctx.argv]; [ctx.output] is a reference to the sink of
    the world the command runs in. *)
Record CommandContext : Type := {
  argv : list string
}.

(** The comparison handed to [std::sort] in [help]:
    [strncasecmp_P(lhs, rhs, lhs.length()) < 0]. *)
Definition name_less (lhs rhs : string) : bool :=
  (strncasecmp lhs rhs (String.length lhs) <? 0)%Z.

Section StdSort.

Context {A : Type}.
Variable comp : A -> A -> bool.

(** [std::__unguarded_linear_insert], on the part of the range before the
    element, read from the element towards the front: every [next] the value
    compares below moves one place to the right. *)
Fixpoint unguarded_linear_insert (val : A) (before : list A) : list A :=
  match before with
  | [] => [val]
  | next :: more =>
      if comp val next then next :: unguarded_linear_insert val more
      else val :: before
  end%list.

(** One round of [std::__insertion_sort]: [done] is the sorted range
    [first, i) and [val] is [*i]. *)
Definition insertion_step (done : list A) (val : A) : list A :=
  match done with
  | [] => [val]
  | first :: _ =>
      if comp val first then val :: done
      else rev (unguarded_linear_insert val (rev done))
  end%list.

(** [std::sort] as libstdc++ runs it on a range of at most 16 elements
    ([_S_threshold]): no partitioning takes place and the whole range goes
    through [std::__insertion_sort]. Longer ranges are partitioned first,
    which this definition does not follow: it stands for [std::sort] on
    ranges of at most 16 elements only. *)
Definition std_sort (range : list A) : list A :=
  match range with
  | [] => []
  | first :: rest => fold_left insertion_step rest [first]
  end%list.

End StdSort.

(** [help]; [names] is what [terminal::names()] returns. *)
Definition help (names : list string) (ctx : CommandContext) (w : World) : World :=
  let names := std_sort name_less names in
  let out := (sink w ++ [Print ("Available commands:" ++ LF)])%list in
  let out := fold_left (fun out name => (out ++ [Print ("> " ++ name ++ LF)])%list)
               names out in
  set_sink (terminalOK out) w.

(** The lambda [host] hands to [dns::start]; it captures [ctx] by reference
    and prints to [ctx.output]. *)
Definition host_callback : FoundCallback :=
  {| cb_id := 0;
     cb_run := fun name addr out =>
       match addr with
       | None => (out ++ [Print (name ++ " not found" ++ LF)])%list
       | Some a =>
           (out ++ [Print (name ++ " has address " ++ IPAddress_toString a ++ LF)])%list
       end |}.

(** What the network stack does during one [delay(100)]: it may deliver the
    resolver's completion. *)
Definition Tick : Type := option Completion.

Definition delay (t : Tick) (w : World) : World :=
  match t with
  | Some c => deliver c w
  | None => w
  end.

(** [while (dns::started()) { delay(100); }]: [None] when the task is still
    pending after every tick of the schedule has passed. *)
Fixpoint wait (ticks : list Tick) (w : World) : option (World * list Tick) :=
  if started w then
    match ticks with
    | [] => None
    | t :: later => wait later (delay t w)
    end
  else Some (w, ticks).

Section Resolver.

Variable dns_gethostbyname : string -> ip_addr_t -> err_t * ip_addr_t.

Definition host (ctx : CommandContext) (ticks : list Tick) (w : World)
    : option (World * list Tick) :=
  if negb (List.length (argv ctx) =? 2)%nat then
    Some (set_sink (terminalError (sink w) "HOST <hostname>") w, ticks)
  else
    let w := start dns_gethostbyname (nth 1 (argv ctx) "") host_callback w in
    wait ticks w.

End Resolver.

(** *** Flash layout *)

Module Layout.

Record t : Type := {
  _name : string;
  _start : Z;
  _end : Z
}.

Definition size (l : t) : Z := Printf.u32 (_end l - _start l).
Definition start (l : t) : Z := _start l.
Definition end_ (l : t) : Z := _end l.
Definition name (l : t) : string := _name l.

End Layout.

(** From the SDK's spi_flash.h and the Core's flash_hal.h. *)
Definition SPI_FLASH_SEC_SIZE : Z := 4096.
Definition FLASH_SECTOR_SIZE : Z := 4096.

Module Layouts.

Record t : Type := {
  _lock : bool;
  _list : list Layout.t;
  _size : Z;
  _current : Z;
  _sectors : Z
}.

(** [Layouts(size)]. *)
Definition make (size : Z) : t :=
  {| _lock := false; _list := []; _size := size; _current := size;
     _sectors := (size / SPI_FLASH_SEC_SIZE)%Z |}.

Definition head (l : t) : option Layout.t :=
  match _list l with
  | [] => None
  | front :: _ => Some front
  end.

(** [lock()]: the returned flag and the object afterwards. *)
Definition lock (l : t) : bool * t :=
  if _lock l then (true, l)
  else (false,
        {| _lock := true; _list := _list l; _size := _size l;
           _current := _current l; _sectors := _sectors l |}).

Definition sectors (l : t) : Z := _sectors l.
Definition size (l : t) : Z := Printf.u32 (_size l - _current l).
Definition current (l : t) : Z := _current l.

Definition add (name : string) (size : Z) (l : t) : t :=
  if negb (_lock l) && (size <=? _current l)%Z then
    let layout :=
      {| Layout._name := name;
         Layout._start := Printf.u32 (_current l - size);
         Layout._end := _current l |} in
    {| _lock := _lock l;
       _list := layout :: _list l;
       _size := _size l;
       _current := Printf.u32 (_current l - Layout.size layout);
       _sectors := _sectors l |}
  else l.

(** [foreach(callback)], the callback acting on a sink. *)
Definition foreach (callback : Layout.t -> Sink -> Sink) (l : t) (out : Sink) : Sink :=
  fold_left (fun out layout => callback layout out) (_list l) out.

End Layouts.

(** What [storage] reads from [ESP] and the settings: chip id, speed and
    mode, the real and the SDK-configured flash size, [eepromSpace()] and
    the sketch size. *)
Record Flash : Type := {
  getFlashChipId : Z;
  getFlashChipSpeed : Z;
  getFlashChipMode : string;
  getFlashChipRealSize : Z;
  getFlashChipSize : Z;
  eepromSpace : Z;
  getSketchSize : Z
}.

(** [(ESP.getSketchSize() + FLASH_SECTOR_SIZE - 1) & (~(FLASH_SECTOR_SIZE - 1))]
    in [uint32_t] arithmetic. *)
Definition app_size (f : Flash) : Z :=
  Z.land (Printf.u32 (getSketchSize f + FLASH_SECTOR_SIZE - 1))
         (Printf.u32 (Z.lnot (FLASH_SECTOR_SIZE - 1))).

(** The table of [storage] once [unused], [sdk] and [eeprom] are in. *)
Definition storage_reserved (f : Flash) : Layouts.t :=
  let layouts := Layouts.make (getFlashChipRealSize f) in
  let layouts :=
    if (getFlashChipSize f <? getFlashChipRealSize f)%Z
    then Layouts.add "unused"
           (Printf.u32 (getFlashChipRealSize f - getFlashChipSize f)) layouts
    else layouts in
  let layouts := Layouts.add "sdk" (4 * SPI_FLASH_SEC_SIZE) layouts in
  Layouts.add "eeprom" (eepromSpace f) layouts.

(** The whole table of [storage]. *)
Definition storage_layouts (f : Flash) : Layouts.t :=
  let layouts := storage_reserved f in
  let ota_size := Printf.u32 (Layouts.current layouts - app_size f) in
  let layouts := Layouts.add "ota" ota_size layouts in
  Layouts.add "app" (app_size f) layouts.

(** The text of ["%-6s [%08X...%08X) (%u bytes)\n"] for one region. *)
Definition layout_row (layout : Layout.t) : string :=
  Printf.left_justified 6 (Layout.name layout)
  ++ " [" ++ Printf.hex 8 (Layout.start layout)
  ++ "..." ++ Printf.hex 8 (Layout.end_ layout)
  ++ ") (" ++ Printf.unsigned (Layout.size layout)
  ++ " bytes)" ++ LF.

Definition print_layout (layout : Layout.t) (out : Sink) : Sink :=
  (out ++ [Print (layout_row layout)])%list.

Definition storage (f : Flash) (ctx : CommandContext) (w : World) : World :=
  let out := sink w in
  let out := (out ++ [Print ("flash chip ID: 0x" ++ Printf.hex 6 (getFlashChipId f) ++ LF)])%list in
  let out := (out ++ [Print ("speed: " ++ Printf.unsigned (getFlashChipSpeed f) ++ LF)])%list in
  let out := (out ++ [Print ("mode: " ++ getFlashChipMode f ++ LF)])%list in
  let out := (out ++ [Print ("size: " ++ Printf.unsigned (getFlashChipRealSize f)
                               ++ " (SPI), " ++ Printf.unsigned (getFlashChipSize f)
                               ++ " (SDK)" ++ LF)])%list in
  let out := Layouts.foreach print_layout (storage_layouts f) out in
  set_sink (terminalOK out) w.

(** *** netstat *)

(** The fields of lwIP's [tcp_pcb] that [netstat] prints; a list of them is
    one of the [next]-linked lists. *)
Record tcp_pcb : Type := {
  state : nat;
  local_ip : ip_addr_t;
  local_port : Z;
  remote_ip : ip_addr_t;
  remote_port : Z
}.

Section Netstat.

(** lwIP's [tcp_debug_state_str]. *)
Variable tcp_debug_state_str : nat -> string.

(** The text of ["state %s local %s:%hu remote %s:%hu\n"] for one block. *)
Definition pcb_line (pcb : tcp_pcb) : string :=
  "state " ++ tcp_debug_state_str (state pcb)
  ++ " local " ++ IPAddress_toString (local_ip pcb)
  ++ ":" ++ Printf.unsigned (local_port pcb)
  ++ " remote " ++ IPAddress_toString (remote_ip pcb)
  ++ ":" ++ Printf.unsigned (remote_port pcb) ++ LF.

Definition print_pcb (out : Sink) (pcb : tcp_pcb) : Sink :=
  (out ++ [Print (pcb_line pcb)])%list.

Definition netstat (tcp_active_pcbs tcp_tw_pcbs tcp_bound_pcbs : list tcp_pcb)
    (ctx : CommandContext) (w : World) : World :=
  let pcbs := [tcp_active_pcbs; tcp_tw_pcbs; tcp_bound_pcbs] in
  set_sink
    (fold_left (fun out list => fold_left print_pcb list out) pcbs (sink w)) w.

End Netstat.

(** *** mfln_probe *)

Section MflnProbe.

(** [URL] (libs/URL.h) as far as [mfln_probe] reads it, [atol], and
    [WiFiClientSecure::probeMaxFragmentLength(host, port, len)]. *)
Variable url_host : string -> string.
Variable url_port : string -> Z.
Variable atol : string -> Z.
Variable probeMaxFragmentLength : string -> Z -> Z -> bool.

Definition mfln_probe (ctx : CommandContext) (w : World) : World :=
  if negb (List.length (argv ctx) =? 3)%nat then
    set_sink (terminalError (sink w) "<url> <value>") w
  else
    let url := nth 1 (argv ctx) "" in
    let requested_mfln := Printf.u16 (atol (nth 2 (argv ctx) "")) in
    if probeMaxFragmentLength (url_host url) (url_port url) requested_mfln then
      set_sink (terminalOK (sink w)) w
    else
      set_sink (terminalError (sink w) "Buffer size not supported") w.

End MflnProbe.

(** *** setup *)

(** The names [commands::setup] registers, in order, with every optional
    section compiled in. *)
Definition setup_names : list string :=
  ["COMMANDS"; "HELP"; "INFO"; "STORAGE"; "UPTIME"; "HEAP"; "NETSTAT"; "HOST";
   "MFLN.PROBE"; "ADC"; "RESET"; "ERASE.CONFIG"; "STABLE"; "UNSTABLE"; "TRAP"].

End Commands.

(** ** namespace serial *)

Module Serial.

(** [LineBuffer::Result]. *)
Record Result : Type := {
  line : string;
  overflow : bool
}.

(** The [LineBuffer] operations [loop] uses; the class template itself is
    declared outside this file. *)
Class LineBuffer (B : Type) : Type := {
  buffer_append : B -> string -> B;
  buffer_overflow : B -> bool;
  buffer_reset : B -> B;
  buffer_line : B -> Result * B
}.

(** What reaches the port: [terminal::error(port, message)] and
    [find_and_call(line, port)]. *)
Inductive PortEvent : Type :=
| PortError (message : string)
| FindAndCall (command : string).

Definition Port : Type := list PortEvent.

Section Loop.

Context {B : Type} `{LineBuffer B}.

(** The [for (;;)] of [loop]; [None] when it has not left the loop after
    [fuel] extractions. *)
Fixpoint drain (fuel : nat) (buffer : B) (port : Port) : option (B * Port) :=
  match fuel with
  | 0 => None
  | S fuel' =>
      let '(result, buffer) := buffer_line buffer in
      if overflow result then
        drain fuel' buffer (port ++ [PortError "Command line buffer overflow"])%list
      else if (String.length (line result) =? 0)%nat then Some (buffer, port)
      else drain fuel' buffer (port ++ [FindAndCall (line result)])%list
  end.

(** [serial::loop] (the [peekAvailable] variant); [rx] is what the port has
    available. *)
Definition loop (fuel : nat) (rx : string) (buffer : B) (port : Port)
    : option (B * Port) :=
  if (String.length rx <=? 0)%nat then Some (buffer, port)
  else
    let buffer := buffer_append buffer rx in
    let '(buffer, port) :=
      if buffer_overflow buffer
      then (buffer_reset buffer, (port ++ [PortError "Serial buffer overflow"])%list)
      else (buffer, port) in
    drain fuel buffer port.

(** The result on which [loop] leaves the [for (;;)]: no overflow and an
    empty line. *)
Definition last_result (r : Result) : bool :=
  negb (overflow r) && (String.length (line r) =? 0)%nat.

(** [Extracted b rs b']: successive [line()] calls on [b] yield the results
    [rs], none of which ends the loop, then one that does, and leave [b']. *)
Inductive Extracted : B -> list Result -> B -> Prop :=
| Extracted_last (b b' : B) (r : Result) :
    buffer_line b = (r, b') ->
    last_result r = true ->
    Extracted b [] b'
| Extracted_more (b b1 b' : B) (r : Result) (rs : list Result) :
    buffer_line b = (r, b1) ->
    last_result r = false ->
    Extracted b1 rs b' ->
    Extracted b (r :: rs) b'.

(** What [loop] does with one result. *)
Definition port_event (r : Result) : PortEvent :=
  if overflow r then PortError "Command line buffer overflow"
  else FindAndCall (line r).

End Loop.

End Serial.

(** ** The line buffer *)

Module SpecLineBuffer.

Import Serial.

(** Modelled from the spec: the [LineBuffer] class template is declared
    outside terminal.cpp. The data model is the spec's: a fixed capacity, the
    pending bytes and the raw-overflow flag, with the internal line-length
    bound alongside. *)
Record Buffer : Type := {
  capacity : nat;
  line_bound : nat;
  pending : string;
  raw_overflow : bool
}.

Definition empty (cap bound : nat) : Buffer :=
  {| capacity := cap; line_bound := bound; pending := ""; raw_overflow := false |}.

(** Modelled from the spec: [append] stores up to capacity-remaining bytes;
    when more were offered than fit it sets raw-overflow and discards the
    remainder, and once raw-overflow is flagged nothing is buffered until
    [reset]. *)
Definition append (b : Buffer) (bytes : string) : Buffer :=
  if raw_overflow b then b
  else
    let room := capacity b - String.length (pending b) in
    if (String.length bytes <=? room)%nat then
      {| capacity := capacity b; line_bound := line_bound b;
         pending := pending b ++ bytes; raw_overflow := false |}
    else
      {| capacity := capacity b; line_bound := line_bound b;
         pending := pending b ++ take room bytes; raw_overflow := true |}.

(** Modelled from the spec: [reset] clears pending bytes and flags and keeps
    the capacity. *)
Definition reset (b : Buffer) : Buffer :=
  {| capacity := capacity b; line_bound := line_bound b;
     pending := ""; raw_overflow := false |}.

(** The text before the first line feed and what follows it. *)
Fixpoint split_at_newline (s : string) : option (string * string) :=
  match s with
  | EmptyString => None
  | String c rest =>
      if (nat_of_ascii c =? 10)%nat then Some (EmptyString, rest)
      else
        match split_at_newline rest with
        | Some (text, after) => Some (String c text, after)
        | None => None
        end
  end.

(** A carriage return right before the line feed is tolerated. *)
Definition strip_cr (text : string) : string :=
  if endsWith text CR then take (String.length text - 1) text else text.

(** Modelled from the spec: [extract_line] returns the text before the first
    terminator and removes the consumed bytes, terminator included; without a
    terminator, a buffered length above the line-length bound reports
    overflow, discards the buffered content and returns no line; otherwise it
    returns no line and no overflow. *)
Definition extract_line (b : Buffer) : Result * Buffer :=
  match split_at_newline (pending b) with
  | Some (text, after) =>
      ({| line := strip_cr text; overflow := false |},
       {| capacity := capacity b; line_bound := line_bound b;
          pending := after; raw_overflow := raw_overflow b |})
  | None =>
      if (line_bound b <? String.length (pending b))%nat then
        ({| line := ""; overflow := true |},
         {| capacity := capacity b; line_bound := line_bound b;
            pending := ""; raw_overflow := raw_overflow b |})
      else ({| line := ""; overflow := false |}, b)
  end.

(** No line feed among the characters. *)
Fixpoint no_newline (s : string) : bool :=
  match s with
  | EmptyString => true
  | String c rest => negb (nat_of_ascii c =? 10)%nat && no_newline rest
  end.

(** A command line as it is typed: not empty, no line feed inside, and no
    carriage return at its end. *)
Definition plain_line (l : string) : bool :=
  negb (String.length l =? 0)%nat && no_newline l && negb (endsWith l CR).

(** The lines as received, each followed by a line feed. *)
Definition received (lines : list string) : string :=
  fold_right (fun l rest => l ++ LF ++ rest) "" lines.

Definition with_pending (b : Buffer) (bytes : string) : Buffer :=
  {| capacity := capacity b; line_bound := line_bound b;
     pending := bytes; raw_overflow := raw_overflow b |}.

#[global] Instance ops : LineBuffer Buffer := {
  buffer_append := append;
  buffer_overflow := raw_overflow;
  buffer_reset := reset;
  buffer_line := extract_line
}.

End SpecLineBuffer.

(** ** A line buffer replaying given results *)

Module ScriptedBuffer.

Import Serial.

(** [loop] reads the buffer only through [line()], and nothing in
    terminal.cpp relates what [line()] returns to what was appended. This
    buffer returns a sequence of results fixed in advance, one per call, and
    no line once they are used up; it lets the loop run on any sequence of
    results the interface allows, such as lines following an overflow. *)
Definition Script : Type := list Result.

Definition next (script : Script) : Result * Script :=
  match script with
  | [] => ({| line := ""; overflow := false |}, [])
  | r :: rest => (r, rest)
  end.

Definition ops : LineBuffer Script := {|
  buffer_append := fun script _ => script;
  buffer_overflow := fun _ => false;
  buffer_reset := fun _ => [];
  buffer_line := next
|}.

End ScriptedBuffer.

(** ** Message transports *)

(** [out.length()] is zero exactly when nothing was written: the status
    markers are fixed, newline-terminated texts. *)
Definition wrote_nothing (w : Write) : bool :=
  match w with
  | Print text => (String.length text =? 0)%nat
  | OK => false
  | Error _ => false
  end.

Definition blank (out : Sink) : bool := forallb wrote_nothing out.

(** Modelled from the spec: [PrintString] (libs/PrintString.h) is the string
    sink a message transport buffers the output in; [PrintString out(size)]
    starts empty. *)
Definition PrintString (size : nat) : Sink := [].

Module Mqtt.

Inductive EventType : Type :=
| MQTT_CONNECT_EVENT
| MQTT_DISCONNECT_EVENT
| MQTT_MESSAGE_EVENT.

(** What the registered callback asks of its surroundings. *)
Inductive Reaction : Type :=
| Subscribe (topic : string)
| Schedule (cmd : string)
| Nothing.

(** [mqttSendRaw(topic, message, retain)]. *)
Record Publish : Type := {
  topic : string;
  message : Sink;
  retain : bool
}.

Section Callback.

(** Declared in mqtt.h and the build configuration. *)
Variable MQTT_TOPIC_CMD : string.
Variable mqttMagnitude : string -> string.
Variable mqttTopic : string -> bool -> string.
Variable TCP_MSS : nat.
(** [None] when the command does not return. *)
Variable api_find_and_call : string -> Sink -> option Sink.

(** The lambda given to [mqttRegister]. *)
Definition callback (type : EventType) (topic payload : string) : Reaction :=
  match type with
  | MQTT_CONNECT_EVENT => Subscribe MQTT_TOPIC_CMD
  | MQTT_MESSAGE_EVENT =>
      let t := mqttMagnitude topic in
      if negb (startsWith t MQTT_TOPIC_CMD) then Nothing
      else if (String.length payload =? 0)%nat then Nothing
      else
        let cmd := payload in
        let cmd :=
          if negb (endsWith cmd CRLF) && negb (endsWith cmd LF)
          then cmd ++ LF else cmd in
        Schedule cmd
  | MQTT_DISCONNECT_EVENT => Nothing
  end.

(** The function handed to [schedule_function]. *)
Definition scheduled (cmd : string) : option (list Publish) :=
  match api_find_and_call cmd (PrintString TCP_MSS) with
  | None => None
  | Some out =>
      let topic := mqttTopic MQTT_TOPIC_CMD false in
      if negb (blank out)
      then Some [{| topic := topic; message := out; retain := false |}]
      else Some []
  end.

End Callback.

End Mqtt.

Module Web.

(** The part of ArduinoJson's [JsonObject] that [onAction] reads. *)
Inductive JsonVariant : Type :=
| JsonString (s : string)
| JsonInteger (z : Z)
| JsonBoolean (b : bool)
| JsonNull.

Definition JsonObject : Type := list (string * JsonVariant).

Fixpoint get (data : JsonObject) (key : string) : option JsonVariant :=
  match data with
  | [] => None
  | (k, v) :: rest => if String.eqb k key then Some v else get rest key
  end.

Definition containsKey (data : JsonObject) (key : string) : bool :=
  match get data key with
  | Some _ => true
  | None => false
  end.

Definition is_String (v : option JsonVariant) : bool :=
  match v with
  | Some (JsonString _) => true
  | _ => false
  end.

Definition as_String (v : option JsonVariant) : string :=
  match v with
  | Some (JsonString s) => s
  | _ => ""
  end.

Definition Key : string := "line".

(** [wsPost(client_id, ...)] with the [cmd.result] payload. *)
Record Post : Type := {
  client : nat;
  result : Sink
}.

(** [onAction]: the command line handed to [schedule_function], if any. *)
Definition onAction (client_id : nat) (action : string) (data : JsonObject)
    : option (nat * string) :=
  if negb (strncmp action "cmd" 3 =? 0)%Z then None
  else if negb (containsKey data Key) || negb (is_String (get data Key)) then None
  else
    let cmd := as_String (get data Key) in
    if (String.length cmd =? 0)%nat then None
    else Some (client_id, cmd).

Section Scheduled.

Variable api_find_and_call : string -> Sink -> option Sink.

Definition scheduled (cmd : string) (client_id : nat) : option Post :=
  match api_find_and_call cmd (PrintString 256) with
  | None => None
  | Some out => Some {| client := client_id; result := out |}
  end.

End Scheduled.

End Web.

Module Api.

(** [ApiRequest]: the request parameters; [param] yields an empty [String]
    for a missing one. *)
Definition ApiRequest : Type := list (string * string).

Fixpoint param (api : ApiRequest) (key : string) : string :=
  match api with
  | [] => ""
  | (k, v) :: rest => if String.eqb k key then v else param rest key
  end.

(** The PUT handler registered by [api::setup]: its return value and the
    command line given to [AsyncWebPrint::scheduleFromRequest], if any. *)
Definition put (api : ApiRequest) : bool * option string :=
  let cmd := param api "line" in
  if (String.length cmd =? 0)%nat then (false, None)
  else
    let cmd :=
      if negb (endsWith cmd CRLF) && negb (endsWith cmd LF)
      then cmd ++ LF else cmd in
    (true, Some cmd).

(** The handler registered with [webRequestRegister] when the API module is
    not built in. [getParam(name, post)] finds the first parameter of that
    name and kind. *)
Record WebParameter : Type := {
  parameter_name : string;
  parameter_value : string;
  isPost : bool
}.

Record AsyncWebServerRequest : Type := {
  url : string;
  method_is_put : bool;
  apiAuthenticate : bool;
  parameters : list WebParameter
}.

Fixpoint getParam (ps : list WebParameter) (name : string) (post : bool)
    : option WebParameter :=
  match ps with
  | [] => None
  | p :: rest =>
      if String.eqb (parameter_name p) name && Bool.eqb (isPost p) post
      then Some p else getParam rest name post
  end.

(** What the handler does with the request: [request->send(code)], or the
    command line given to [AsyncWebPrint::scheduleFromRequest]. *)
Inductive Outcome : Type :=
| Send (code : nat)
| Run (cmd : string).

Section Fallback.

(** [API_BASE_PATH] and [getSetting("termWebApiPath", TERMINAL_WEB_API_PATH)]. *)
Variable API_BASE_PATH : string.
Variable termWebApiPath : string.

Definition request_handler (request : AsyncWebServerRequest) : bool * option Outcome :=
  let path := API_BASE_PATH ++ termWebApiPath in
  if negb (String.eqb path (url request)) then (false, None)
  else if negb (apiAuthenticate request) then (true, Some (Send 403))
  else
    match getParam (parameters request) "line" (method_is_put request) with
    | None => (true, Some (Send 500))
    | Some cmd_param =>
        let cmd := parameter_value cmd_param in
        if (String.length cmd =? 0)%nat then (true, Some (Send 500))
        else
          let cmd :=
            if negb (endsWith cmd CRLF) && negb (endsWith cmd LF)
            then cmd ++ LF else cmd in
          (true, Some (Run cmd))
    end.

End Fallback.

End Api.

(** ** The dispatcher *)

Module Dispatcher.

Import Dns Commands.

(** The handlers of [commands::setup] embedded above. *)
Inductive Handler : Type :=
| HandlerHelp
| HandlerHost.

Definition Registry : Type := list (string * Handler).

(** [commands::setup], for the handlers embedded above. *)
Definition setup : Registry :=
  [("COMMANDS", HandlerHelp); ("HELP", HandlerHelp); ("HOST", HandlerHost)].

Definition names (registry : Registry) : list string := map fst registry.

Definition is_space (c : ascii) : bool :=
  let n := nat_of_ascii c in
  ((n =? 32) || ((9 <=? n) && (n <=? 13)))%nat.

Definition is_terminator (c : ascii) : bool :=
  let n := nat_of_ascii c in
  ((n =? 10) || (n =? 13))%nat.

(** Drops the line terminators at the end of the line. *)
Fixpoint trim (s : string) : string :=
  match s with
  | EmptyString => EmptyString
  | String c rest =>
      match trim rest with
      | EmptyString => if is_terminator c then EmptyString else String c EmptyString
      | kept => String c kept
      end
  end.

(** Splits on whitespace; [word] is the token being read. *)
Fixpoint tokenize (s word : string) : list string :=
  match s with
  | EmptyString => if (String.length word =? 0)%nat then [] else [word]
  | String c rest =>
      if is_space c then
        if (String.length word =? 0)%nat then tokenize rest ""
        else word :: tokenize rest ""
      else tokenize rest (word ++ String c EmptyString)
  end.

Fixpoint lookup (registry : Registry) (name : string) : option Handler :=
  match registry with
  | [] => None
  | (n, h) :: rest =>
      if String.eqb (lower n) (lower name) then Some h else lookup rest name
  end.

Section Resolver.

Variable dns_gethostbyname : string -> ip_addr_t -> err_t * ip_addr_t.

Definition invoke (registry : Registry) (h : Handler) (ctx : CommandContext)
    (ticks : list Tick) (w : World) : option (World * list Tick) :=
  match h with
  | HandlerHelp => Some (help (names registry) ctx w, ticks)
  | HandlerHost => host dns_gethostbyname ctx ticks w
  end.

(** Modelled from the spec: [find_and_call] is defined outside terminal.cpp.
    It trims trailing line terminators and tokenizes on whitespace; a blank
    line is ignored; the first token is looked up case-insensitively; an
    unknown name is reported as an error naming it; a known one has its
    handler invoked on the context. *)
Definition find_and_call (registry : Registry) (line : string)
    (ticks : list Tick) (w : World) : option (World * list Tick) :=
  match tokenize (trim line) "" with
  | [] => Some (w, ticks)
  | name :: args =>
      match lookup registry name with
      | None =>
          Some (set_sink (terminalError (sink w) ("unknown command " ++ name)) w, ticks)
      | Some h => invoke registry h {| argv := name :: args |} ticks w
      end
  end.

(** Modelled from the spec: [api_find_and_call(cmd, out)] is defined outside
    terminal.cpp; a message transport passes the command string directly to
    the dispatcher with its own sink as output. The command runs against
    [out] while the network stack follows [ticks]; [None] when the command
    is still waiting at the end of the schedule. *)
Definition api_find_and_call (registry : Registry) (ticks : list Tick)
    (cmd : string) (out : Sink) : option Sink :=
  match find_and_call registry cmd ticks (set_sink out idle) with
  | Some (w, _) => Some (sink w)
  | None => None
  end.

End Resolver.

End Dispatcher.

(** ** The order the help text is specified to follow *)

Module HelpOrder.

(** Case-insensitive lexicographic order, in the words of the specification:
    the names compared character by character after case folding, a name
    preceding every longer name it is a prefix of. *)
Definition le (a b : string) : bool := String.leb (lower a) (lower b).

Fixpoint sorted (names : list string) : bool :=
  match names with
  | [] => true
  | a :: rest =>
      match rest with
      | [] => true
      | b :: _ => le a b && sorted rest
      end
  end.

(** A C string holds no NUL character. *)
Fixpoint c_string (s : string) : bool :=
  match s with
  | EmptyString => true
  | String c rest => negb (nat_of_ascii c =? 0)%nat && c_string rest
  end.

(** [a] is, case folded, a prefix of [b] without being all of it. *)
Definition proper_prefix (a b : string) : bool :=
  prefix (lower a) (lower b) && negb (String.eqb (lower a) (lower b)).

End HelpOrder.

(** ** Sequences of operations on the flash table *)

Module Regions.

Import Commands.

(** The regions follow one another from [from] up to [upto] without gap or
    overlap, each with its start not above its end. *)
Fixpoint chained (from : Z) (l : list Layout.t) (upto : Z) : Prop :=
  match l with
  | [] => from = upto
  | x :: rest =>
      Layout._start x = from
      /\ (from <= Layout._end x)%Z
      /\ chained (Layout._end x) rest upto
  end.

(** The table lies within the flash and its regions run from [current()]
    to the flash size. *)
Definition well_formed (l : Layouts.t) : Prop :=
  (0 <= Layouts._current l <= Layouts._size l)%Z
  /\ (Layouts._size l < 4294967296)%Z
  /\ chained (Layouts._current l) (Layouts._list l) (Layouts._size l).

(** The region lies between [lo] and [hi]. *)
Definition within (lo hi : Z) (x : Layout.t) : Prop :=
  (lo <= Layout.start x)%Z
  /\ (Layout.start x <= Layout.end_ x)%Z
  /\ (Layout.end_ x <= hi)%Z.

(** The first region ends before the second starts. *)
Definition before (x y : Layout.t) : Prop :=
  (Layout.end_ x <= Layout.start y)%Z.

(** A call on the table. *)
Inductive Op : Type :=
| Add (name : string) (size : Z)
| Lock.

(** The arguments are [uint32_t] values. *)
Definition in_range (o : Op) : Prop :=
  match o with
  | Add _ size => (0 <= size < 4294967296)%Z
  | Lock => True
  end.

Definition apply (l : Layouts.t) (o : Op) : Layouts.t :=
  match o with
  | Add name size => Layouts.add name size l
  | Lock => snd (Layouts.lock l)
  end.

Definition run (ops : list Op) (l : Layouts.t) : Layouts.t :=
  fold_left apply ops l.

Definition total_size (l : list Layout.t) : Z :=
  fold_right (fun x acc => (Layout.size x + acc)%Z) 0%Z l.

(** The fields of [Flash] are [uint32_t] values. *)
Definition flash_in_range (f : Flash) : Prop :=
  (0 <= getFlashChipRealSize f < 4294967296)%Z
  /\ (0 <= getFlashChipSize f < 4294967296)%Z
  /\ (0 <= eepromSpace f < 4294967296)%Z
  /\ (0 <= getSketchSize f < 4294967296)%Z.

End Regions.

(** ** What is observed of a run *)

Module Observed.

(** The write is plain text, not a status marker. *)
Definition is_print (w : Write) : Prop :=
  match w with
  | Print _ => True
  | OK => False
  | Error _ => False
  end.

(** The write is a status marker. *)
Definition is_status (w : Write) : Prop :=
  match w with
  | Print _ => False
  | OK => True
  | Error _ => True
  end.

(** How many of the steps are calls of [dns::start]. *)
Fixpoint started_count (steps : list Dns.Step) : nat :=
  match steps with
  | [] => 0
  | Dns.Delivered _ :: rest => started_count rest
  | Dns.Started _ _ _ :: rest => S (started_count rest)
  end.

(** The hostnames passed to [dns::start], in order. *)
Fixpoint started_hostnames (steps : list Dns.Step) : list string :=
  match steps with
  | [] => []
  | Dns.Delivered _ :: rest => started_hostnames rest
  | Dns.Started _ hostname _ :: rest => hostname :: started_hostnames rest
  end.

(** The callback invocations still owed: one while a task is pending. *)
Definition owed (w : Dns.World) : nat :=
  if Dns.started w then 1 else 0.

(** What the drain loop of [serial::loop] may put on the port. *)
Definition drained_event (e : Serial.PortEvent) : Prop :=
  match e with
  | Serial.PortError message => message = "Command line buffer overflow"
  | Serial.FindAndCall command => command <> ""
  end.

End Observed.

(** * Properties *)

(** ** The single-slot task *)

Section DnsFacts.

Import Dns.

Variable dns_gethostbyname : string -> ip_addr_t -> err_t * ip_addr_t.

Lemma started_idle (w : World) : started w = false <-> task w = None.
Proof.
  unfold started. destruct (task w); split; congruence.
Qed.

Lemma found_callback_idle (n : string) (a : option ip_addr_t) (w : World) :
  task w = None -> found_callback n a w = w.
Proof.
  intros Hidle. unfold found_callback. now rewrite Hidle.
Qed.

Lemma deliver_all_idle (cs : list Completion) (w : World) :
  task w = None -> deliver_all cs w = w.
Proof.
  intros Hidle. induction cs as [| c cs IH]; simpl.
  - reflexivity.
  - unfold deliver. rewrite found_callback_idle by assumption. exact IH.
Qed.

Lemma found_callback_pending (t : Task) (n : string) (a : option ip_addr_t) (w : World) :
  task w = Some t ->
  found_callback n a w =
    {| task := None;
       invoked := invoked w ++ [{| who := cb_id (_callback t); name := n; addr := a |}];
       lookups := lookups w;
       sink := cb_run (_callback t) n a (sink w) |}%list.
Proof.
  intros Hpending. unfold found_callback. now rewrite Hpending.
Qed.

Lemma times_invoked_app (id : nat) (w : World) (more : list Invocation) (w' : World) :
  invoked w' = (invoked w ++ more)%list ->
  times_invoked id w' =
    times_invoked id w + List.length (filter (fun i => (who i =? id)%nat) more).
Proof.
  intros Hlog. unfold times_invoked.
  now rewrite Hlog, filter_app, length_app.
Qed.

Lemma wait_idle (ticks : list Commands.Tick) (w : World) :
  started w = false -> Commands.wait ticks w = Some (w, ticks).
Proof.
  intros Hidle. destruct ticks; cbn; now rewrite Hidle.
Qed.

(** The three outcomes of [start], by the resolver's result code. *)
Lemma start_cases (hostname : string) (callback : FoundCallback) (w : World)
    (e : err_t) (a : ip_addr_t) :
  dns_gethostbyname hostname IPADDR_NONE = (e, a) ->
  start dns_gethostbyname hostname callback w =
    if (e =? ERR_OK)%Z then
      call callback hostname (Some a) (log_lookup hostname w)
    else if (e =? ERR_INPROGRESS)%Z then
      set_task
        (Some {| _hostname := hostname; _callback := callback; _addr := a |})
        (log_lookup hostname w)
    else log_lookup hostname w.
Proof.
  intros Hreply. unfold start. cbn [_hostname _addr _callback].
  rewrite Hreply. reflexivity.
Qed.

End DnsFacts.

(** C5: when the resolver answers a [start] issued from the idle state at
    once with [ERR_OK], the callback is invoked inside [start], exactly once,
    with the hostname and the address the resolver stored, and the task slot
    is still empty afterwards ([started] is false). *)
Theorem dns_start_immediate_answer :
  forall (dns_gethostbyname : string -> ip_addr_t -> err_t * ip_addr_t)
         (hostname : string) (callback : Dns.FoundCallback)
         (a : ip_addr_t) (w : Dns.World),
    Dns.started w = false ->
    dns_gethostbyname hostname IPADDR_NONE = (ERR_OK, a) ->
    let w' := Dns.start dns_gethostbyname hostname callback w in
    Dns.invoked w' =
      (Dns.invoked w ++
       [{| Dns.who := Dns.cb_id callback; Dns.name := hostname; Dns.addr := Some a |}])%list
    /\ Dns.sink w' = Dns.cb_run callback hostname (Some a) (Dns.sink w)
    /\ Dns.started w' = false.
Proof.
  intros resolver hostname callback a w Hidle Hreply w'. subst w'.
  rewrite (start_cases resolver hostname callback w ERR_OK a Hreply).
  cbn. repeat split. exact Hidle.
Qed.

Lemma dns_start_immediate_answer_witness :
  let resolver := fun (_ : string) (_ : ip_addr_t) => (ERR_OK, 16777343%Z) in
  let w' := Dns.start resolver "localhost" Commands.host_callback Dns.idle in
  Dns.invoked w' =
    [{| Dns.who := 0; Dns.name := "localhost"; Dns.addr := Some 16777343%Z |}]
  /\ Dns.sink w' = [Print ("localhost has address 127.0.0.1" ++ LF)]
  /\ Dns.started w' = false.
Proof.
  exact (dns_start_immediate_answer
           (fun _ _ => (ERR_OK, 16777343%Z)) "localhost" Commands.host_callback
           16777343%Z Dns.idle eq_refl eq_refl).
Defined.

(** C6: when the resolver's completion handler fires while a task is
    pending, the stored callback is invoked exactly once with the delivered
    name and address (it runs on the output, and the invocation is logged),
    and the slot is emptied (the task, with its hostname and callback, is
    released); nothing is asked of the resolver; any further firing changes
    nothing, so the callback is not invoked again. *)
Theorem dns_completion_fires_once :
  forall (t : Dns.Task) (n : string) (a : option ip_addr_t) (w : Dns.World),
    Dns.task w = Some t ->
    let w' := Dns.found_callback n a w in
    Dns.invoked w' =
      (Dns.invoked w ++
       [{| Dns.who := Dns.cb_id (Dns._callback t); Dns.name := n; Dns.addr := a |}])%list
    /\ Dns.sink w' = Dns.cb_run (Dns._callback t) n a (Dns.sink w)
    /\ Dns.lookups w' = Dns.lookups w
    /\ Dns.times_invoked (Dns.cb_id (Dns._callback t)) w' =
         S (Dns.times_invoked (Dns.cb_id (Dns._callback t)) w)
    /\ Dns.task w' = None
    /\ Dns.started w' = false
    /\ (forall n' a', Dns.found_callback n' a' w' = w')
    /\ (forall cs, Dns.deliver_all cs w' = w').
Proof.
  intros t n a w Hpending w'. subst w'.
  rewrite (found_callback_pending t n a w Hpending).
  split; [reflexivity |]. split; [reflexivity |]. split; [reflexivity |]. split.
  - erewrite times_invoked_app by reflexivity.
    cbn. rewrite Nat.eqb_refl. cbn. lia.
  - split; [reflexivity |]. split; [reflexivity |]. split.
    + intros n' a'. now apply found_callback_idle.
    + intros cs. now apply deliver_all_idle.
Qed.

Lemma dns_completion_fires_once_witness :
  let t := {| Dns._hostname := "example.com"; Dns._callback := Commands.host_callback;
              Dns._addr := IPADDR_NONE |} in
  let w := Dns.set_task (Some t) Dns.idle in
  let w' := Dns.found_callback "example.com" (Some 16777343%Z) w in
  Dns.invoked w' =
    [{| Dns.who := 0; Dns.name := "example.com"; Dns.addr := Some 16777343%Z |}]
  /\ Dns.sink w' = [Print ("example.com has address 127.0.0.1" ++ LF)]
  /\ Dns.lookups w' = []
  /\ Dns.times_invoked 0 w' = 1
  /\ Dns.task w' = None
  /\ Dns.started w' = false
  /\ (forall n' a', Dns.found_callback n' a' w' = w')
  /\ (forall cs, Dns.deliver_all cs w' = w').
Proof.
  exact (dns_completion_fires_once
           {| Dns._hostname := "example.com"; Dns._callback := Commands.host_callback;
              Dns._addr := IPADDR_NONE |}
           "example.com" (Some 16777343%Z)
           (Dns.set_task
              (Some {| Dns._hostname := "example.com";
                       Dns._callback := Commands.host_callback;
                       Dns._addr := IPADDR_NONE |}) Dns.idle)
           eq_refl).
Defined.

(** C10: when the resolver answers a [start] issued from the idle state with
    a result that is neither [ERR_OK] nor [ERR_INPROGRESS], the task is
    dropped: the callback is not invoked, in [start] or by any later
    completion, the slot stays empty, and [host] leaves its wait loop without
    a single [delay] and without having printed anything. *)
Theorem dns_start_immediate_error :
  forall (dns_gethostbyname : string -> ip_addr_t -> err_t * ip_addr_t)
         (hostname : string) (callback : Dns.FoundCallback)
         (e : err_t) (a : ip_addr_t) (w : Dns.World),
    Dns.started w = false ->
    dns_gethostbyname hostname IPADDR_NONE = (e, a) ->
    e <> ERR_OK ->
    e <> ERR_INPROGRESS ->
    let w' := Dns.start dns_gethostbyname hostname callback w in
    Dns.invoked w' = Dns.invoked w
    /\ Dns.sink w' = Dns.sink w
    /\ Dns.started w' = false
    /\ (forall cs, Dns.invoked (Dns.deliver_all cs w') = Dns.invoked w)
    /\ (forall command ticks,
          exists wh,
            Commands.host dns_gethostbyname
              {| Commands.argv := [command; hostname] |} ticks w = Some (wh, ticks)
            /\ Dns.sink wh = Dns.sink w
            /\ Dns.invoked wh = Dns.invoked w
            /\ Dns.started wh = false).
Proof.
  intros resolver hostname callback e a w Hidle Hreply Hok Hprogress w'.
  assert (Hstart : forall cb,
             Dns.start resolver hostname cb w = Dns.log_lookup hostname w).
  { intros cb. rewrite (start_cases resolver hostname cb w e a Hreply).
    destruct (Z.eqb_spec e ERR_OK); [contradiction |].
    destruct (Z.eqb_spec e ERR_INPROGRESS); [contradiction |]. reflexivity. }
  subst w'. rewrite Hstart.
  assert (Hslot : Dns.task (Dns.log_lookup hostname w) = None).
  { cbn. now apply started_idle. }
  repeat split; try exact Hidle.
  - intros cs. now rewrite deliver_all_idle.
  - intros command ticks. exists (Dns.log_lookup hostname w).
    unfold Commands.host. cbn [Commands.argv List.length Nat.eqb negb nth].
    rewrite Hstart, wait_idle by (now apply started_idle).
    repeat split. now apply started_idle.
Qed.

Lemma dns_start_immediate_error_witness :
  let resolver := fun (_ : string) (a : ip_addr_t) => (ERR_ARG, a) in
  let w' := Dns.start resolver "bad host" Commands.host_callback Dns.idle in
  Dns.invoked w' = []
  /\ Dns.sink w' = []
  /\ Dns.started w' = false
  /\ (forall cs, Dns.invoked (Dns.deliver_all cs w') = [])
  /\ (forall command ticks,
        exists wh,
          Commands.host resolver
            {| Commands.argv := [command; "bad host"] |} ticks Dns.idle = Some (wh, ticks)
          /\ Dns.sink wh = []
          /\ Dns.invoked wh = []
          /\ Dns.started wh = false).
Proof.
  apply (dns_start_immediate_error
           (fun _ a => (ERR_ARG, a)) "bad host" Commands.host_callback
           ERR_ARG IPADDR_NONE Dns.idle eq_refl eq_refl).
  - discriminate.
  - discriminate.
Defined.

(** C4: whenever [argv] does not hold exactly two elements, [host] writes the
    usage error to the context output and returns at once: nothing is asked
    of the resolver, no task is stored, no callback runs and no [delay] is
    spent. *)
Theorem host_usage_error :
  forall (dns_gethostbyname : string -> ip_addr_t -> err_t * ip_addr_t)
         (ctx : Commands.CommandContext) (ticks : list Commands.Tick) (w : Dns.World),
    List.length (Commands.argv ctx) <> 2 ->
    exists w',
      Commands.host dns_gethostbyname ctx ticks w = Some (w', ticks)
      /\ Dns.sink w' = (Dns.sink w ++ [Error "HOST <hostname>"])%list
      /\ Dns.task w' = Dns.task w
      /\ Dns.lookups w' = Dns.lookups w
      /\ Dns.invoked w' = Dns.invoked w.
Proof.
  intros resolver ctx ticks w Hargc.
  unfold Commands.host.
  destruct (Nat.eqb_spec (List.length (Commands.argv ctx)) 2) as [Heq | _];
    [contradiction |].
  cbn [negb]. eexists. split; [reflexivity |]. cbn. repeat split.
Qed.

Lemma host_usage_error_witness :
  exists w',
    Commands.host (fun _ a => (ERR_INPROGRESS, a))
      {| Commands.argv := ["HOST"] |} [None] Dns.idle = Some (w', [None])
    /\ Dns.sink w' = [Error "HOST <hostname>"]
    /\ Dns.task w' = None
    /\ Dns.lookups w' = []
    /\ Dns.invoked w' = [].
Proof.
  apply (host_usage_error (fun _ a => (ERR_INPROGRESS, a))
           {| Commands.argv := ["HOST"] |} [None] Dns.idle).
  cbn. lia.
Defined.

(** A callback that is neither stored in the slot nor passed to a later
    [start] is never invoked. *)
Lemma absent_callback_never_invoked (id : nat) (steps : list Dns.Step) :
  forall w : Dns.World,
    (forall t, Dns.task w = Some t -> Dns.cb_id (Dns._callback t) <> id) ->
    Forall (Dns.not_started_with id) steps ->
    Dns.times_invoked id (Dns.run steps w) = Dns.times_invoked id w.
Proof.
  induction steps as [| s steps IH]; intros w Hslot Hsteps.
  - reflexivity.
  - inversion Hsteps as [| s' steps' Hs Hrest]; subst.
    unfold Dns.run in *. cbn [fold_left].
    assert (Hone : Dns.times_invoked id (Dns.step s w) = Dns.times_invoked id w
                   /\ forall t, Dns.task (Dns.step s w) = Some t ->
                                Dns.cb_id (Dns._callback t) <> id).
    { destruct s as [c | [e a] hostname callback]; cbn [Dns.step].
      - unfold Dns.deliver. destruct (Dns.task w) as [t |] eqn:Htask.
        + rewrite (found_callback_pending t _ _ w Htask). split.
          * erewrite times_invoked_app by reflexivity. cbn.
            destruct (Nat.eqb_spec (Dns.cb_id (Dns._callback t)) id) as [Heq | _].
            -- exfalso. exact (Hslot t eq_refl Heq).
            -- cbn. lia.
          * cbn. discriminate.
        + rewrite found_callback_idle by assumption.
          split; [reflexivity |]. intros t Ht. congruence.
      - cbn in Hs.
        rewrite (start_cases (fun _ _ => (e, a)) hostname callback w e a eq_refl).
        destruct (e =? ERR_OK)%Z; [| destruct (e =? ERR_INPROGRESS)%Z].
        + split.
          * erewrite times_invoked_app by reflexivity. cbn.
            destruct (Nat.eqb_spec (Dns.cb_id callback) id) as [Heq | _];
              [contradiction |]. unfold Dns.times_invoked. cbn. lia.
          * cbn. exact Hslot.
        + split; [reflexivity |]. cbn. intros t Ht. injection Ht as <-. exact Hs.
        + split; [reflexivity |]. cbn. exact Hslot. }
    destruct Hone as [Hcount Hslot'].
    rewrite (IH (Dns.step s w) Hslot' Hrest). exact Hcount.
Qed.

(** C1, as stated, fails: with two requests the resolver cannot answer at
    once, the second [start] takes the slot from the first. Nothing is
    written and nothing is refused, and whatever happens afterwards, the first
    caller's callback is never invoked. *)
Lemma dns_second_start_drops_first_callback :
  let resolver := fun (_ : string) (a : ip_addr_t) => (ERR_INPROGRESS, a) in
  let first := {| Dns.cb_id := 1;
                  Dns.cb_run := fun _ _ out => (out ++ [Print "first"])%list |} in
  let second := {| Dns.cb_id := 2;
                   Dns.cb_run := fun _ _ out => (out ++ [Print "second"])%list |} in
  let w1 := Dns.start resolver "a.example" first Dns.idle in
  let w2 := Dns.start resolver "b.example" second w1 in
  Dns.started w1 = true
  /\ Dns.sink w2 = []
  /\ Dns.lookups w2 = ["a.example"; "b.example"]
  /\ option_map Dns._callback (Dns.task w2) = Some second
  /\ (forall steps,
        Forall (Dns.not_started_with 1) steps ->
        Dns.times_invoked 1 (Dns.run steps w2) = 0).
Proof.
  cbn zeta. repeat split.
  intros steps Hsteps.
  rewrite absent_callback_never_invoked.
  - reflexivity.
  - cbn. intros t Ht. injection Ht as <-. cbn. discriminate.
  - exact Hsteps.
Qed.

(** C1, amended: a [start] issued while a task is pending is never refused
    and reports nothing itself: the output and the callback log change only
    when the resolver answers this request with [ERR_OK] at once, and then
    only by the new callback running. If the resolver answers at once (with
    [ERR_OK] or an immediate error) the pending task keeps the slot, and the
    next completion runs its callback on the delivered name and address and
    empties the slot. If the resolver returns [ERR_INPROGRESS], the new task
    replaces the pending one without any callback running and without any
    output: the state is the one that would have resulted had no task been
    pending, and the replaced task's callback is dropped: unless a later
    [start] passes it again, it is never invoked. *)
Theorem dns_start_while_pending :
  forall (dns_gethostbyname : string -> ip_addr_t -> err_t * ip_addr_t)
         (hostname : string) (callback : Dns.FoundCallback)
         (e : err_t) (a : ip_addr_t) (t : Dns.Task) (w : Dns.World),
    Dns.task w = Some t ->
    dns_gethostbyname hostname IPADDR_NONE = (e, a) ->
    let w' := Dns.start dns_gethostbyname hostname callback w in
    (e <> ERR_OK ->
       Dns.sink w' = Dns.sink w /\ Dns.invoked w' = Dns.invoked w)
    /\ (e = ERR_OK ->
          Dns.sink w' = Dns.cb_run callback hostname (Some a) (Dns.sink w)
          /\ Dns.invoked w' =
               (Dns.invoked w ++
                [{| Dns.who := Dns.cb_id callback;
                    Dns.name := hostname; Dns.addr := Some a |}])%list)
    /\ (e <> ERR_INPROGRESS ->
          Dns.task w' = Some t
          /\ forall n a',
               Dns.invoked (Dns.found_callback n a' w') =
                 (Dns.invoked w' ++
                  [{| Dns.who := Dns.cb_id (Dns._callback t);
                      Dns.name := n; Dns.addr := a' |}])%list
               /\ Dns.sink (Dns.found_callback n a' w') =
                    Dns.cb_run (Dns._callback t) n a' (Dns.sink w')
               /\ Dns.task (Dns.found_callback n a' w') = None)
    /\ (e = ERR_INPROGRESS ->
          Dns.task w' =
            Some {| Dns._hostname := hostname; Dns._callback := callback;
                    Dns._addr := a |}
          /\ Dns.invoked w' = Dns.invoked w
          /\ Dns.sink w' = Dns.sink w
          /\ w' = Dns.start dns_gethostbyname hostname callback (Dns.set_task None w)
          /\ (Dns.cb_id (Dns._callback t) <> Dns.cb_id callback ->
              forall steps,
                Forall (Dns.not_started_with (Dns.cb_id (Dns._callback t))) steps ->
                Dns.times_invoked (Dns.cb_id (Dns._callback t)) (Dns.run steps w') =
                  Dns.times_invoked (Dns.cb_id (Dns._callback t)) w)).
Proof.
  intros resolver hostname callback e a t w Hpending Hreply w'. subst w'.
  rewrite (start_cases resolver hostname callback (Dns.set_task None w) e a Hreply).
  rewrite (start_cases resolver hostname callback w e a Hreply).
  split; [| split; [| split]].
  - intros Hnot.
    destruct (Z.eqb_spec e ERR_OK) as [Heq | _]; [contradiction |].
    destruct (e =? ERR_INPROGRESS)%Z; cbn; split; reflexivity.
  - intros ->. cbn. split; reflexivity.
  - intros Hnot.
    destruct (Z.eqb_spec e ERR_INPROGRESS) as [Heq | _]; [contradiction |].
    assert (Hkept : Dns.task
                      (if (e =? ERR_OK)%Z
                       then Dns.call callback hostname (Some a)
                              (Dns.log_lookup hostname w)
                       else Dns.log_lookup hostname w) = Some t).
    { destruct (e =? ERR_OK)%Z; cbn; exact Hpending. }
    split; [exact Hkept |].
    intros n a'. rewrite (found_callback_pending t n a' _ Hkept).
    repeat split.
  - intros ->. cbn. repeat split.
    intros Hdistinct steps Hsteps.
    rewrite absent_callback_never_invoked.
    + reflexivity.
    + cbn. intros t' Ht'. injection Ht' as <-. cbn. congruence.
    + exact Hsteps.
Qed.

Lemma dns_start_while_pending_witness :
  let busy := fun (_ : string) (a : ip_addr_t) => (ERR_INPROGRESS, a) in
  let cached := fun (_ : string) (_ : ip_addr_t) => (ERR_OK, 16777343%Z) in
  let first := {| Dns.cb_id := 1;
                  Dns.cb_run := fun _ _ out => (out ++ [Print "first"])%list |} in
  let second := {| Dns.cb_id := 2;
                   Dns.cb_run := fun _ _ out => (out ++ [Print "second"])%list |} in
  let t := {| Dns._hostname := "a.example"; Dns._callback := first;
              Dns._addr := IPADDR_NONE |} in
  let w := Dns.start busy "a.example" first Dns.idle in
  (Dns.task (Dns.start cached "localhost" second w) = Some t
   /\ Dns.sink (Dns.start cached "localhost" second w) = [Print "second"]
   /\ Dns.sink (Dns.found_callback "a.example" None
                  (Dns.start cached "localhost" second w)) =
        [Print "second"; Print "first"]
   /\ Dns.task (Dns.found_callback "a.example" None
                  (Dns.start cached "localhost" second w)) = None)
  /\ (Dns.task (Dns.start busy "b.example" second w) =
        Some {| Dns._hostname := "b.example"; Dns._callback := second;
                Dns._addr := IPADDR_NONE |}
      /\ Dns.sink (Dns.start busy "b.example" second w) = []
      /\ Dns.invoked (Dns.start busy "b.example" second w) = []
      /\ Dns.start busy "b.example" second w =
           Dns.start busy "b.example" second (Dns.set_task None w)
      /\ forall steps,
           Forall (Dns.not_started_with 1) steps ->
           Dns.times_invoked 1 (Dns.run steps (Dns.start busy "b.example" second w)) = 0).
Proof.
  cbn zeta.
  set (first := {| Dns.cb_id := 1;
                   Dns.cb_run := fun _ _ out => (out ++ [Print "first"])%list |}).
  set (second := {| Dns.cb_id := 2;
                    Dns.cb_run := fun _ _ out => (out ++ [Print "second"])%list |}).
  set (t := {| Dns._hostname := "a.example"; Dns._callback := first;
               Dns._addr := IPADDR_NONE |}).
  set (w := Dns.start (fun _ a => (ERR_INPROGRESS, a)) "a.example" first Dns.idle).
  split.
  - destruct (dns_start_while_pending
                (fun _ _ => (ERR_OK, 16777343%Z)) "localhost" second
                ERR_OK 16777343%Z t w eq_refl eq_refl) as (_ & Hran & Hkept & _).
    destruct (Hran eq_refl) as [Hsink _].
    destruct (Hkept ltac:(discriminate)) as [Hslot Hnext].
    destruct (Hnext "a.example" None) as (_ & Hnextsink & Hnextslot).
    split; [exact Hslot |]. split; [exact Hsink |]. split; [| exact Hnextslot].
    rewrite Hnextsink, Hsink. reflexivity.
  - destruct (dns_start_while_pending
                (fun _ a => (ERR_INPROGRESS, a)) "b.example" second
                ERR_INPROGRESS IPADDR_NONE t w eq_refl eq_refl) as (_ & _ & _ & Hreplaced).
    destruct (Hreplaced eq_refl) as (Hslot & Hlog & Hsink & Hsame & Hnever).
    split; [exact Hslot |]. split; [exact Hsink |]. split; [exact Hlog |].
    split; [exact Hsame |].
    intros steps Hsteps. apply (Hnever ltac:(discriminate) steps Hsteps).
Defined.

(** ** Strings *)

Lemma length_append (p q : string) :
  String.length (p ++ q) = String.length p + String.length q.
Proof.
  induction p as [| c p IH]; cbn; [reflexivity | now rewrite IH].
Qed.

Lemma append_assoc (p q r : string) : (p ++ q) ++ r = p ++ (q ++ r).
Proof.
  induction p as [| c p IH]; cbn; [reflexivity | now rewrite IH].
Qed.

Lemma drop_append (p q : string) : drop (String.length p) (p ++ q) = q.
Proof.
  induction p as [| c p IH]; cbn; [reflexivity | exact IH].
Qed.

Lemma take_drop (n : nat) (s : string) : take n s ++ drop n s = s.
Proof.
  revert s. induction n as [| n IH]; intros [| c s]; cbn; try reflexivity.
  now rewrite IH.
Qed.

(** [endsWith] holds exactly of the strings that are some text followed by
    the suffix. *)
Lemma endsWith_iff (s suffix : string) :
  endsWith s suffix = true <-> exists p, s = p ++ suffix.
Proof.
  unfold endsWith. split.
  - destruct (Nat.ltb_spec (String.length s) (String.length suffix)) as [| Hle];
      [discriminate |].
    generalize (String.length s - String.length suffix). intros n Heq.
    apply String.eqb_eq in Heq.
    exists (take n s).
    rewrite <- Heq. symmetry. apply take_drop.
  - intros [p ->]. rewrite length_append.
    destruct (Nat.ltb_spec (String.length p + String.length suffix)
                (String.length suffix)) as [Hlt | _]; [lia |].
    replace (String.length p + String.length suffix - String.length suffix)
      with (String.length p) by lia.
    rewrite drop_append. apply String.eqb_refl.
Qed.

Lemma endsWith_CRLF_LF (s : string) : endsWith s CRLF = true -> endsWith s LF = true.
Proof.
  rewrite !endsWith_iff. intros [p ->]. exists (p ++ CR).
  unfold CRLF. now rewrite append_assoc.
Qed.

(** ** Message transports *)

(** The MQTT handler terminates a payload that has no terminator yet. *)
Lemma mqtt_appends_terminator
    (MQTT_TOPIC_CMD : string) (mqttMagnitude : string -> string)
    (topic payload : string) :
  startsWith (mqttMagnitude topic) MQTT_TOPIC_CMD = true ->
  payload <> "" ->
  endsWith payload LF = false ->
  Mqtt.callback MQTT_TOPIC_CMD mqttMagnitude Mqtt.MQTT_MESSAGE_EVENT topic payload =
    Mqtt.Schedule (payload ++ LF).
Proof.
  intros Htopic Hnonempty Hopen. unfold Mqtt.callback.
  rewrite Htopic. cbn [negb].
  destruct payload as [| c rest]; [contradiction |]. cbn [String.length Nat.eqb].
  rewrite Hopen.
  destruct (endsWith (String c rest) CRLF) eqn:Hcrlf.
  - apply endsWith_CRLF_LF in Hcrlf. congruence.
  - reflexivity.
Qed.

(** So does the HTTP API handler. *)
Lemma api_appends_terminator (api : Api.ApiRequest) :
  Api.param api "line" <> "" ->
  endsWith (Api.param api "line") LF = false ->
  Api.put api = (true, Some (Api.param api "line" ++ LF)).
Proof.
  intros Hnonempty Hopen. unfold Api.put.
  destruct (Api.param api "line") as [| c rest]; [contradiction |].
  cbn [String.length Nat.eqb]. rewrite Hopen.
  destruct (endsWith (String c rest) CRLF) eqn:Hcrlf.
  - apply endsWith_CRLF_LF in Hcrlf. congruence.
  - reflexivity.
Qed.

(** The web-socket handler schedules the line exactly as it arrived. *)
Lemma web_schedules_line_as_received
    (client_id : nat) (action : string) (data : Web.JsonObject)
    (client : nat) (cmd : string) :
  Web.onAction client_id action data = Some (client, cmd) ->
  client = client_id /\ Web.get data Web.Key = Some (Web.JsonString cmd).
Proof.
  unfold Web.onAction.
  destruct (negb (strncmp action "cmd" 3 =? 0)%Z); [discriminate |].
  unfold Web.containsKey.
  destruct (Web.get data Web.Key) as [[s | z | b |] |]; cbn; try discriminate.
  destruct (String.length s =? 0)%nat; [discriminate |].
  intros Heq. injection Heq as <- <-. split; reflexivity.
Qed.

(** C2: the web-socket action handler given the line [help] hands exactly
    [help] to the scheduled call of the dispatcher, with no line terminator,
    where the MQTT handler and the HTTP API handler given the same text hand
    over [help] followed by a line feed. *)
Theorem web_action_line_left_unterminated :
  Web.onAction 7 "cmd" [("line", Web.JsonString "help")] = Some (7, "help")
  /\ endsWith "help" LF = false
  /\ endsWith "help" CRLF = false
  /\ Mqtt.callback "cmd" (fun t => t) Mqtt.MQTT_MESSAGE_EVENT "cmd" "help" =
       Mqtt.Schedule ("help" ++ LF)
  /\ Api.put [("line", "help")] = (true, Some ("help" ++ LF)).
Proof.
  repeat split.
Qed.

(** ** The help command *)

Section InsertionSort.

Context {A : Type}.
Variable comp : A -> A -> bool.
Variable dom : A -> Prop.
Variable le : A -> A -> Prop.

Hypothesis le_trans : forall a b c, le a b -> le b c -> le a c.
Hypothesis comp_below : forall a b, dom a -> dom b -> comp a b = true -> le a b.
Hypothesis comp_not_below : forall a b, dom a -> dom b -> comp a b = false -> le b a.

Lemma strongly_sorted_snoc (R : A -> A -> Prop) (l : list A) (x : A) :
  StronglySorted R l -> Forall (fun y => R y x) l -> StronglySorted R (l ++ [x]).
Proof.
  induction 1 as [| a l Hsorted IH Hall]; intros Hx; cbn.
  - repeat constructor.
  - inversion Hx as [| ? ? Hax Hrest]; subst.
    constructor; [now apply IH |].
    apply Forall_app. split; [assumption | now constructor].
Qed.

Lemma strongly_sorted_rev (R : A -> A -> Prop) (l : list A) :
  StronglySorted R l -> StronglySorted (fun a b => R b a) (rev l).
Proof.
  induction 1 as [| a l Hsorted IH Hall]; cbn.
  - constructor.
  - apply strongly_sorted_snoc; [exact IH |].
    apply Forall_rev. exact Hall.
Qed.

Lemma unguarded_linear_insert_sorted (val : A) (before : list A) :
  dom val -> Forall dom before -> StronglySorted (fun a b => le b a) before ->
  StronglySorted (fun a b => le b a) (Commands.unguarded_linear_insert comp val before)
  /\ Permutation (val :: before) (Commands.unguarded_linear_insert comp val before).
Proof.
  intros Hval. induction before as [| next more IH]; intros Hdom Hsorted; cbn.
  - split; [repeat constructor | reflexivity].
  - inversion Hdom as [| ? ? Hnext Hmore]; subst.
    apply StronglySorted_inv in Hsorted as [Hsorted Hall].
    destruct (comp val next) eqn:Hcmp.
    + destruct (IH Hmore Hsorted) as [IHsorted IHperm]. split.
      * constructor; [exact IHsorted |].
        apply (Permutation_Forall IHperm). constructor; [| exact Hall].
        now apply comp_below.
      * rewrite <- IHperm. apply perm_swap.
    + split; [| reflexivity].
      assert (Hle : le next val) by now apply comp_not_below.
      constructor; [now constructor |].
      constructor; [exact Hle |].
      eapply Forall_impl; [| exact Hall].
      intros x Hx. cbn beta in *. eapply le_trans; eassumption.
Qed.

Lemma insertion_step_sorted (done : list A) (val : A) :
  dom val -> Forall dom done -> StronglySorted le done ->
  StronglySorted le (Commands.insertion_step comp done val)
  /\ Permutation (val :: done) (Commands.insertion_step comp done val).
Proof.
  intros Hval Hdom Hsorted. destruct done as [| first rest]; cbn.
  - split; [repeat constructor | reflexivity].
  - destruct (comp val first) eqn:Hcmp.
    + split; [| reflexivity].
      assert (Hle : le val first).
      { apply comp_below; [assumption | now inversion Hdom | assumption]. }
      constructor; [exact Hsorted |].
      apply StronglySorted_inv in Hsorted as [_ Hall].
      constructor; [exact Hle |].
      eapply Forall_impl; [| exact Hall].
      intros x Hx. eapply le_trans; eassumption.
    + destruct (unguarded_linear_insert_sorted val (rev (first :: rest)) Hval)
        as [Hdesc Hperm].
      * apply Forall_rev. exact Hdom.
      * apply (strongly_sorted_rev le). exact Hsorted.
      * split.
        -- apply (strongly_sorted_rev (fun a b => le b a)) in Hdesc. exact Hdesc.
        -- rewrite <- Permutation_rev, <- Hperm.
           apply perm_skip. apply Permutation_rev.
Qed.

Lemma std_sort_sorted (range : list A) :
  Forall dom range ->
  StronglySorted le (Commands.std_sort comp range)
  /\ Permutation range (Commands.std_sort comp range).
Proof.
  destruct range as [| first rest]; cbn.
  - split; constructor.
  - intros Hdom. inversion Hdom as [| ? ? Hfirst Hrest]; subst.
    assert (Hgen : forall done,
               Forall dom done -> StronglySorted le done ->
               StronglySorted le (fold_left (Commands.insertion_step comp) rest done)
               /\ Permutation (done ++ rest)
                    (fold_left (Commands.insertion_step comp) rest done)).
    { clear Hdom Hfirst. induction rest as [| val rest IH]; intros done Hdone Hsorted; cbn.
      - rewrite app_nil_r. split; [assumption | reflexivity].
      - inversion Hrest as [| ? ? Hval Hrest']; subst.
        destruct (insertion_step_sorted done val Hval Hdone Hsorted) as [Hs Hp].
        destruct (IH Hrest' (Commands.insertion_step comp done val)) as [Hs' Hp'].
        + apply (Permutation_Forall Hp). now constructor.
        + exact Hs.
        + split; [exact Hs' |].
          rewrite <- Hp', <- Hp. symmetry. apply Permutation_middle. }
    destruct (Hgen [first]) as [Hs Hp].
    + now constructor.
    + repeat constructor.
    + split; assumption.
Qed.

End InsertionSort.

Lemma ascii_compare_codes (m n : nat) :
  m < 256 -> n < 256 ->
  Ascii.compare (ascii_of_nat m) (ascii_of_nat n) = Nat.compare m n.
Proof.
  intros Hm Hn. unfold Ascii.compare, ascii_of_nat.
  rewrite !N_ascii_embedding by lia.
  now rewrite <- Nat2N.inj_compare.
Qed.

Lemma tolower_bounded (c : ascii) : tolower (nat_of_ascii c) < 256.
Proof.
  pose proof (nat_ascii_bounded c) as Hc. unfold tolower.
  destruct ((65 <=? nat_of_ascii c) && (nat_of_ascii c <=? 90))%nat eqn:Hupper; [| exact Hc].
  apply andb_true_iff in Hupper as [_ Hle]. apply Nat.leb_le in Hle. lia.
Qed.

Lemma tolower_zero (n : nat) : tolower n = 0 -> n = 0.
Proof.
  unfold tolower.
  destruct ((65 <=? n) && (n <=? 90))%nat; [lia | auto].
Qed.

Lemma string_leb_trans (a b c : string) :
  String.leb a b = true -> String.leb b c = true -> String.leb a c = true.
Proof.
  unfold String.leb. revert b c.
  induction a as [| x a IH]; intros [| y b] [| z c]; cbn; try congruence.
  unfold Ascii.compare.
  destruct (N.compare_spec (N_of_ascii x) (N_of_ascii y)) as [Hxy | Hxy | Hxy];
    destruct (N.compare_spec (N_of_ascii y) (N_of_ascii z)) as [Hyz | Hyz | Hyz];
    try congruence;
    destruct (N.compare_spec (N_of_ascii x) (N_of_ascii z)) as [Hxz | Hxz | Hxz];
    try congruence; try lia.
  apply IH.
Qed.

(** Where the left name is not, case folded, a proper prefix of the right
    one, the comparison [help] sorts with is the strict case-insensitive
    lexicographic order. *)
Lemma name_less_ltb (a b : string) :
  HelpOrder.c_string a = true ->
  HelpOrder.proper_prefix a b = false ->
  Commands.name_less a b = String.ltb (lower a) (lower b).
Proof.
  unfold Commands.name_less, HelpOrder.proper_prefix, String.ltb.
  revert b. induction a as [| c a IH]; intros [| d b] Hc Hprefix;
    cbn in Hprefix; try discriminate; cbn [String.length strncasecmp peek advance lower].
  - reflexivity.
  - cbn in Hc. apply andb_true_iff in Hc as [Hnul _].
    apply negb_true_iff, Nat.eqb_neq in Hnul.
    change (tolower 0) with 0.
    destruct (Nat.eqb_spec (tolower (nat_of_ascii c)) 0) as [Hzero | Hnonzero].
    + apply tolower_zero in Hzero. contradiction.
    + cbn [negb String.compare]. apply Z.ltb_ge. lia.
  - cbn in Hc. apply andb_true_iff in Hc as [Hnul Hc].
    apply negb_true_iff, Nat.eqb_neq in Hnul.
    cbn [String.compare].
    rewrite ascii_compare_codes by apply tolower_bounded.
    destruct (Nat.eqb_spec (tolower (nat_of_ascii c)) (tolower (nat_of_ascii d)))
      as [Hsame | Hdiffer].
    + cbn [negb]. rewrite Hsame, Nat.compare_refl.
      destruct (Nat.eqb_spec (tolower (nat_of_ascii d)) 0) as [Hzero | _].
      * rewrite <- Hsame in Hzero. apply tolower_zero in Hzero. contradiction.
      * apply IH; [exact Hc |].
        rewrite Hsame in Hprefix.
        destruct (ascii_dec (ascii_of_nat (tolower (nat_of_ascii d)))
                    (ascii_of_nat (tolower (nat_of_ascii d)))) as [_ | Hne];
          [| now contradiction Hne].
        now rewrite Ascii.eqb_refl in Hprefix.
    + cbn [negb].
      destruct (Nat.compare_spec (tolower (nat_of_ascii c)) (tolower (nat_of_ascii d)))
        as [Heq | Hlt | Hgt].
      * contradiction.
      * apply Z.ltb_lt. lia.
      * apply Z.ltb_ge. lia.
Qed.

Lemma sorted_of_strongly_sorted (names : list string) :
  StronglySorted (fun a b => HelpOrder.le a b = true) names ->
  HelpOrder.sorted names = true.
Proof.
  induction 1 as [| a rest Hsorted IH Hall]; [reflexivity |].
  destruct rest as [| b rest]; [reflexivity |].
  cbn [HelpOrder.sorted]. cbn [HelpOrder.sorted] in IH.
  inversion Hall as [| ? ? Hab _]; subst.
  now rewrite Hab, IH.
Qed.

Lemma fold_left_prints (f : string -> Write) (names : list string) (out : Sink) :
  fold_left (fun out name => (out ++ [f name])%list) names out =
    (out ++ map f names)%list.
Proof.
  revert out. induction names as [| n names IH]; intros out; cbn.
  - now rewrite app_nil_r.
  - rewrite IH. now rewrite <- app_assoc.
Qed.

(** What [help] writes, whatever the names. *)
Lemma help_output (names : list string) (ctx : Commands.CommandContext) (w : Dns.World) :
  Dns.sink (Commands.help names ctx w) =
    (Dns.sink w
       ++ [Print ("Available commands:" ++ LF)]
       ++ map (fun name => Print ("> " ++ name ++ LF))
            (Commands.std_sort Commands.name_less names)
       ++ [OK])%list.
Proof.
  unfold Commands.help, terminalOK. cbn [Dns.sink Dns.set_sink].
  rewrite fold_left_prints. now rewrite <- !app_assoc.
Qed.

(** Up to 16 registered names none of which is, case folded, a proper
    prefix of another are printed by [help] in case-insensitive
    lexicographic order, all of them, between the heading and the OK
    marker. *)
Lemma help_sorted_without_prefixes
    (names : list string) (ctx : Commands.CommandContext) (w : Dns.World) :
  List.length names <= 16 ->
  Forall (fun a => HelpOrder.c_string a = true) names ->
  (forall a b, In a names -> In b names -> HelpOrder.proper_prefix a b = false) ->
  exists printed,
    Permutation names printed
    /\ HelpOrder.sorted printed = true
    /\ Dns.sink (Commands.help names ctx w) =
         (Dns.sink w
            ++ [Print ("Available commands:" ++ LF)]
            ++ map (fun name => Print ("> " ++ name ++ LF)) printed
            ++ [OK])%list.
Proof.
  intros _ Hc Hprefix.
  exists (Commands.std_sort Commands.name_less names).
  destruct (std_sort_sorted Commands.name_less (fun a => In a names)
              (fun a b => HelpOrder.le a b = true)) with (range := names)
    as [Hsorted Hperm].
  - intros a b c. apply string_leb_trans.
  - intros a b Ha Hb Hless.
    rewrite name_less_ltb in Hless.
    + unfold HelpOrder.le, String.leb. unfold String.ltb in Hless.
      now destruct (String.compare (lower a) (lower b)).
    + rewrite Forall_forall in Hc. now apply Hc.
    + now apply Hprefix.
  - intros a b Ha Hb Hless.
    rewrite name_less_ltb in Hless.
    + unfold HelpOrder.le, String.leb. unfold String.ltb in Hless.
      rewrite String.compare_antisym.
      now destruct (String.compare (lower a) (lower b)).
    + rewrite Forall_forall in Hc. now apply Hc.
    + now apply Hprefix.
  - apply Forall_forall. auto.
  - split; [exact Hperm |]. split.
    + now apply sorted_of_strongly_sorted.
    + apply help_output.
Qed.

(** The names of the specification's example come out in order. *)
Example help_example :
  Dns.sink (Commands.help ["Reset"; "Adc"; "Info"]
              {| Commands.argv := ["HELP"] |} Dns.idle) =
    [Print ("Available commands:" ++ LF);
     Print ("> Adc" ++ LF); Print ("> Info" ++ LF); Print ("> Reset" ++ LF);
     OK].
Proof.
  reflexivity.
Qed.


(** C3: with [RESET.SAFE] registered ahead of [RESET], [help] prints
    [RESET.SAFE] before [RESET]: the comparison reads only as many characters
    as its left operand has, finds neither name below the other, and the
    insertion sort leaves them where they were; in case-insensitive
    lexicographic order [RESET] comes first. *)
Theorem help_prints_prefix_after_longer_name :
  Dns.sink (Commands.help ["RESET.SAFE"; "RESET"]
              {| Commands.argv := ["HELP"] |} Dns.idle) =
    [Print ("Available commands:" ++ LF);
     Print ("> RESET.SAFE" ++ LF);
     Print ("> RESET" ++ LF);
     OK]
  /\ Commands.name_less "RESET" "RESET.SAFE" = false
  /\ Commands.name_less "RESET.SAFE" "RESET" = false
  /\ HelpOrder.sorted ["RESET.SAFE"; "RESET"] = false
  /\ HelpOrder.sorted ["RESET"; "RESET.SAFE"] = true.
Proof.
  repeat split.
Qed.

(** ** The serial loop *)

Section SerialFacts.

Import Serial.

Context {B : Type} `{LineBuffer B}.

(** The drain loop turns the results it extracts into port events one by
    one, in the order of extraction, and stops at the first result that
    carries neither an overflow nor a line. *)
Lemma drain_extracted (b b' : B) (rs : list Result) :
  Extracted b rs b' ->
  forall (fuel : nat) (port : Port),
    List.length rs < fuel ->
    drain fuel b port = Some (b', (port ++ map port_event rs)%list).
Proof.
  induction 1 as [b b' r Hline Hlast | b b1 b' r rs Hline Hmore _ IH];
    intros fuel port Hfuel.
  - destruct fuel as [| fuel]; [cbn in Hfuel; lia |].
    cbn [drain]. rewrite Hline.
    unfold last_result in Hlast. apply andb_true_iff in Hlast as [Hno Hempty].
    apply negb_true_iff in Hno. rewrite Hno, Hempty.
    cbn. now rewrite app_nil_r.
  - destruct fuel as [| fuel]; [cbn in Hfuel; lia |].
    cbn [drain]. rewrite Hline.
    cbn [map]. unfold port_event at 1.
    unfold last_result in Hmore.
    destruct (overflow r).
    + rewrite IH by (cbn in Hfuel; lia). now rewrite <- app_assoc.
    + cbn in Hmore. rewrite Hmore.
      rewrite IH by (cbn in Hfuel; lia). now rewrite <- app_assoc.
Qed.

Lemma map_port_event_lines (rs : list Result) :
  Forall (fun r => overflow r = false) rs ->
  map port_event rs = map (fun r => FindAndCall (line r)) rs.
Proof.
  induction 1 as [| r rs Hr _ IH]; cbn; [reflexivity |].
  unfold port_event at 1. now rewrite Hr, IH.
Qed.

End SerialFacts.

(** C7: when a [line()] call of the drain loop reports overflow, the loop
    writes the [Command line buffer overflow] diagnostic, which is not the
    [Serial buffer overflow] one, and goes on extracting: what was extracted
    before is already on the port, and every line extracted afterwards is
    handed to [find_and_call] in the order of extraction, until the buffer
    yields nothing more. *)
Theorem serial_line_overflow_reported_and_drained :
  forall (B : Type) (ops : Serial.LineBuffer B) (b b' : B)
         (before after : list Serial.Result) (r : Serial.Result)
         (fuel : nat) (port : Serial.Port),
    Serial.Extracted b (before ++ r :: after) b' ->
    Serial.overflow r = true ->
    Forall (fun x => Serial.overflow x = false) after ->
    List.length (before ++ r :: after) < fuel ->
    Serial.drain fuel b port =
      Some (b',
            (port ++ map Serial.port_event before
                  ++ [Serial.PortError "Command line buffer overflow"]
                  ++ map (fun x => Serial.FindAndCall (Serial.line x)) after)%list)
    /\ "Command line buffer overflow" <> "Serial buffer overflow".
Proof.
  intros B ops b b' before after r fuel port Hextracted Hoverflow Hafter Hfuel.
  split; [| discriminate].
  rewrite (drain_extracted b b' _ Hextracted fuel port Hfuel).
  rewrite map_app. cbn [map]. unfold Serial.port_event at 2. rewrite Hoverflow.
  now rewrite (map_port_event_lines after Hafter).
Qed.

Lemma serial_line_overflow_reported_and_drained_witness :
  let script :=
    [{| Serial.line := "help"; Serial.overflow := false |};
     {| Serial.line := ""; Serial.overflow := true |};
     {| Serial.line := "info"; Serial.overflow := false |};
     {| Serial.line := "uptime"; Serial.overflow := false |}] in
  let b := {| SpecLineBuffer.capacity := 32; SpecLineBuffer.line_bound := 8;
              SpecLineBuffer.pending := "help" ++ LF ++ "info" ++ CRLF ++ "aaaaaaaaaaaa";
              SpecLineBuffer.raw_overflow := false |} in
  (@Serial.drain ScriptedBuffer.Script ScriptedBuffer.ops 5 script [] =
     Some ([],
           [Serial.FindAndCall "help";
            Serial.PortError "Command line buffer overflow";
            Serial.FindAndCall "info"; Serial.FindAndCall "uptime"])
   /\ "Command line buffer overflow" <> "Serial buffer overflow")
  /\ (Serial.drain 4 b [] =
        Some (SpecLineBuffer.empty 32 8,
              [Serial.FindAndCall "help"; Serial.FindAndCall "info";
               Serial.PortError "Command line buffer overflow"])
      /\ "Command line buffer overflow" <> "Serial buffer overflow").
Proof.
  split.
  - apply (serial_line_overflow_reported_and_drained
             ScriptedBuffer.Script ScriptedBuffer.ops _ []
             [{| Serial.line := "help"; Serial.overflow := false |}]
             [{| Serial.line := "info"; Serial.overflow := false |};
              {| Serial.line := "uptime"; Serial.overflow := false |}]
             {| Serial.line := ""; Serial.overflow := true |}
             5 []).
    + eapply Serial.Extracted_more; [reflexivity | reflexivity |].
      eapply Serial.Extracted_more; [reflexivity | reflexivity |].
      eapply Serial.Extracted_more; [reflexivity | reflexivity |].
      eapply Serial.Extracted_more; [reflexivity | reflexivity |].
      eapply Serial.Extracted_last; reflexivity.
    + reflexivity.
    + repeat constructor.
    + cbn. lia.
  - apply (serial_line_overflow_reported_and_drained
             SpecLineBuffer.Buffer SpecLineBuffer.ops _ (SpecLineBuffer.empty 32 8)
             [{| Serial.line := "help"; Serial.overflow := false |};
              {| Serial.line := "info"; Serial.overflow := false |}]
             []
             {| Serial.line := ""; Serial.overflow := true |}
             4 []).
    + eapply Serial.Extracted_more; [reflexivity | reflexivity |].
      eapply Serial.Extracted_more; [reflexivity | reflexivity |].
      eapply Serial.Extracted_more; [reflexivity | reflexivity |].
      eapply Serial.Extracted_last; reflexivity.
    + reflexivity.
    + constructor.
    + cbn. lia.
Defined.

(** On the line buffer as specified, a line overflow in one poll does not
    keep the lines of the next poll from being dispatched in order. *)
Example serial_lines_after_line_overflow :
  let b0 := SpecLineBuffer.empty 32 8 in
  match Serial.loop 4 "aaaaaaaaaaaa" b0 [] with
  | Some (b1, port) => Serial.loop 4 ("help" ++ LF ++ "info" ++ LF) b1 port
  | None => None
  end =
  Some (b0, [Serial.PortError "Command line buffer overflow";
             Serial.FindAndCall "help"; Serial.FindAndCall "info"]).
Proof.
  reflexivity.
Qed.

Lemma split_at_newline_line (l rest : string) :
  SpecLineBuffer.no_newline l = true ->
  SpecLineBuffer.split_at_newline (l ++ LF ++ rest) = Some (l, rest).
Proof.
  induction l as [| c l IH]; cbn; [reflexivity |].
  intros Hl. apply andb_true_iff in Hl as [Hc Hl].
  apply negb_true_iff in Hc. rewrite Hc. cbn in IH. now rewrite IH.
Qed.

Lemma split_at_newline_none (tail : string) :
  SpecLineBuffer.no_newline tail = true ->
  SpecLineBuffer.split_at_newline tail = None.
Proof.
  induction tail as [| c tail IH]; cbn; [reflexivity |].
  intros Ht. apply andb_true_iff in Ht as [Hc Ht].
  apply negb_true_iff in Hc. now rewrite Hc, IH.
Qed.

(** On the line buffer as specified, the lines come out of [line()] in the
    order their bytes went in, and an unfinished tail stays buffered. *)
Lemma spec_buffer_extracts_in_order (lines : list string) (tail : string) :
  Forall (fun l => SpecLineBuffer.plain_line l = true) lines ->
  SpecLineBuffer.no_newline tail = true ->
  forall b : SpecLineBuffer.Buffer,
    String.length tail <= SpecLineBuffer.line_bound b ->
    SpecLineBuffer.pending b = SpecLineBuffer.received lines ++ tail ->
    Serial.Extracted b
      (map (fun l => {| Serial.line := l; Serial.overflow := false |}) lines)
      (SpecLineBuffer.with_pending b tail).
Proof.
  intros Hlines Htail. induction Hlines as [| l lines Hl _ IH]; intros b Hbound Hpending.
  - cbn in Hpending.
    apply Serial.Extracted_last with (r := {| Serial.line := ""; Serial.overflow := false |});
      [| reflexivity].
    cbn. unfold SpecLineBuffer.extract_line.
    rewrite Hpending, (split_at_newline_none tail Htail).
    destruct (Nat.ltb_spec (SpecLineBuffer.line_bound b) (String.length tail)); [lia |].
    destruct b; cbn in *; now subst.
  - unfold SpecLineBuffer.plain_line in Hl.
    apply andb_true_iff in Hl as [Hl Hcr]. apply andb_true_iff in Hl as [Hlen Hnl].
    apply negb_true_iff in Hcr.
    eapply Serial.Extracted_more with
      (b1 := SpecLineBuffer.with_pending b (SpecLineBuffer.received lines ++ tail)).
    + cbn. unfold SpecLineBuffer.extract_line. rewrite Hpending.
      cbn [SpecLineBuffer.received fold_right].
      rewrite !append_assoc, (split_at_newline_line l _ Hnl).
      unfold SpecLineBuffer.strip_cr. rewrite Hcr. reflexivity.
    + unfold Serial.last_result. cbn. apply negb_true_iff in Hlen. now rewrite Hlen.
    + apply (IH (SpecLineBuffer.with_pending b (SpecLineBuffer.received lines ++ tail)));
        [exact Hbound | reflexivity].
Qed.

(** So the drain loop hands them to [find_and_call] in the order received. *)
Lemma spec_buffer_dispatches_in_order
    (lines : list string) (tail : string) (b : SpecLineBuffer.Buffer)
    (port : Serial.Port) :
  Forall (fun l => SpecLineBuffer.plain_line l = true) lines ->
  SpecLineBuffer.no_newline tail = true ->
  String.length tail <= SpecLineBuffer.line_bound b ->
  SpecLineBuffer.pending b = SpecLineBuffer.received lines ++ tail ->
  Serial.drain (S (List.length lines)) b port =
    Some (SpecLineBuffer.with_pending b tail,
          (port ++ map Serial.FindAndCall lines)%list).
Proof.
  intros Hlines Htail Hbound Hpending.
  rewrite (drain_extracted b _ _
             (spec_buffer_extracts_in_order lines tail Hlines Htail b Hbound Hpending))
    by (rewrite length_map; lia).
  rewrite map_map. reflexivity.
Qed.

(** C9: when the buffer reports raw overflow after the append, [loop] writes
    the [Serial buffer overflow] diagnostic and resets the buffer before the
    first [line()] call; a reset buffer holding nothing to extract, the loop
    ends there: nothing of what was pending, complete lines included, is
    handed to [find_and_call]. *)
Theorem serial_raw_overflow_discards_pending :
  forall (B : Type) (ops : Serial.LineBuffer B),
    (forall b : B,
        Serial.buffer_line (Serial.buffer_reset b) =
          ({| Serial.line := ""; Serial.overflow := false |}, Serial.buffer_reset b)) ->
    forall (buffer : B) (rx : string) (port : Serial.Port) (fuel : nat),
      rx <> "" ->
      Serial.buffer_overflow (Serial.buffer_append buffer rx) = true ->
      Serial.loop (S fuel) rx buffer port =
        Some (Serial.buffer_reset (Serial.buffer_append buffer rx),
              (port ++ [Serial.PortError "Serial buffer overflow"])%list).
Proof.
  intros B ops Hreset buffer rx port fuel Hrx Hoverflow.
  unfold Serial.loop.
  destruct rx as [| c rx]; [contradiction |].
  cbn [String.length Nat.leb]. rewrite Hoverflow.
  cbn [Serial.drain]. rewrite Hreset. reflexivity.
Qed.

Lemma serial_raw_overflow_discards_pending_witness :
  let rx := "a" ++ LF ++ "b" ++ LF ++ "cccccccccccc" in
  Serial.loop 1 rx (SpecLineBuffer.empty 8 4) [] =
    Some (SpecLineBuffer.empty 8 4, [Serial.PortError "Serial buffer overflow"])
  /\ Serial.loop 3 rx (SpecLineBuffer.empty 32 16) [] =
       Some ({| SpecLineBuffer.capacity := 32; SpecLineBuffer.line_bound := 16;
                SpecLineBuffer.pending := "cccccccccccc";
                SpecLineBuffer.raw_overflow := false |},
             [Serial.FindAndCall "a"; Serial.FindAndCall "b"]).
Proof.
  split.
  - apply (serial_raw_overflow_discards_pending
             SpecLineBuffer.Buffer SpecLineBuffer.ops
             (fun b => eq_refl)
             (SpecLineBuffer.empty 8 4)
             ("a" ++ LF ++ "b" ++ LF ++ "cccccccccccc") [] 0).
    + discriminate.
    + reflexivity.
  - reflexivity.
Defined.

(** ** The MQTT reply *)

(** C8, as stated, fails: [HOST nowhere] sent over MQTT, with a resolver that
    rejects the name at once, is scheduled and runs to completion without
    writing anything, and nothing is published. *)
Lemma mqtt_silent_command_publishes_nothing :
  let resolver := fun (_ : string) (a : ip_addr_t) => (ERR_ARG, a) in
  let dispatcher :=
    Dispatcher.api_find_and_call resolver Dispatcher.setup [] in
  Mqtt.callback "cmd" (fun t => t) Mqtt.MQTT_MESSAGE_EVENT "cmd" "HOST nowhere" =
    Mqtt.Schedule ("HOST nowhere" ++ LF)
  /\ dispatcher ("HOST nowhere" ++ LF) (PrintString 536) = Some []
  /\ Mqtt.scheduled "cmd" (fun t _ => t) 536 dispatcher ("HOST nowhere" ++ LF) = Some [].
Proof.
  repeat split.
Qed.

(** C8, amended: when a command run from the MQTT transport has completed
    with something in its output sink, the sink's contents are published,
    once, to the command reply topic; when the sink is empty nothing is
    published. *)
Theorem mqtt_publishes_output :
  forall (MQTT_TOPIC_CMD : string) (mqttTopic : string -> bool -> string)
         (TCP_MSS : nat) (api_find_and_call : string -> Sink -> option Sink)
         (cmd : string) (out : Sink),
    api_find_and_call cmd (PrintString TCP_MSS) = Some out ->
    Mqtt.scheduled MQTT_TOPIC_CMD mqttTopic TCP_MSS api_find_and_call cmd =
      Some (if blank out then []
            else [{| Mqtt.topic := mqttTopic MQTT_TOPIC_CMD false;
                     Mqtt.message := out;
                     Mqtt.retain := false |}]).
Proof.
  intros TOPIC mqttTopic MSS dispatcher cmd out Hdone.
  unfold Mqtt.scheduled. rewrite Hdone. now destruct (blank out).
Qed.

Lemma mqtt_publishes_output_witness :
  let resolver := fun (_ : string) (a : ip_addr_t) => (ERR_ARG, a) in
  let dispatcher :=
    Dispatcher.api_find_and_call resolver Dispatcher.setup [] in
  Mqtt.scheduled "cmd" (fun t _ => t) 536 dispatcher ("HOST" ++ LF) =
    Some [{| Mqtt.topic := "cmd";
             Mqtt.message := [Error "HOST <hostname>"];
             Mqtt.retain := false |}].
Proof.
  exact (mqtt_publishes_output "cmd" (fun t _ => t) 536
           (Dispatcher.api_find_and_call (fun _ a => (ERR_ARG, a)) Dispatcher.setup [])
           ("HOST" ++ LF) [Error "HOST <hostname>"] eq_refl).
Defined.

(** ** The flash table *)

Lemma u32_small (z : Z) : (0 <= z < 4294967296)%Z -> Printf.u32 z = z.
Proof.
  intros Hz. unfold Printf.u32. now apply Z.mod_small.
Qed.

Lemma add_accepted (name : string) (size : Z) (l : Commands.Layouts.t) :
  Commands.Layouts._lock l = false ->
  (0 <= size <= Commands.Layouts._current l)%Z ->
  (Commands.Layouts._current l < 4294967296)%Z ->
  Commands.Layouts.add name size l =
    {| Commands.Layouts._lock := false;
       Commands.Layouts._list :=
         {| Commands.Layout._name := name;
            Commands.Layout._start := (Commands.Layouts._current l - size)%Z;
            Commands.Layout._end := Commands.Layouts._current l |}
         :: Commands.Layouts._list l;
       Commands.Layouts._size := Commands.Layouts._size l;
       Commands.Layouts._current := (Commands.Layouts._current l - size)%Z;
       Commands.Layouts._sectors := Commands.Layouts._sectors l |}.
Proof.
  intros Hlock Hsize Hcur. unfold Commands.Layouts.add, Commands.Layout.size.
  rewrite Hlock. cbn [negb andb].
  destruct (Z.leb_spec size (Commands.Layouts._current l)) as [_ | Hgt]; [| lia].
  cbn [Commands.Layout._start Commands.Layout._end].
  rewrite (u32_small (Commands.Layouts._current l - size)) by lia.
  replace (Commands.Layouts._current l - (Commands.Layouts._current l - size))%Z
    with size by lia.
  rewrite (u32_small size) by lia.
  rewrite (u32_small (Commands.Layouts._current l - size)) by lia.
  reflexivity.
Qed.

Lemma add_rejected (name : string) (size : Z) (l : Commands.Layouts.t) :
  Commands.Layouts._lock l = true \/ (Commands.Layouts._current l < size)%Z ->
  Commands.Layouts.add name size l = l.
Proof.
  intros [Hlock | Hbig]; unfold Commands.Layouts.add.
  - now rewrite Hlock.
  - destruct (Z.leb_spec size (Commands.Layouts._current l)); [lia |].
    now rewrite andb_false_r.
Qed.

Lemma add_well_formed (name : string) (size : Z) (l : Commands.Layouts.t) :
  (0 <= size)%Z ->
  Regions.well_formed l -> Regions.well_formed (Commands.Layouts.add name size l).
Proof.
  intros Hsize (Hcur & Hmax & Hchain).
  destruct (Commands.Layouts._lock l) eqn:Hlock.
  - rewrite add_rejected by now left. now repeat split.
  - destruct (Z.leb_spec size (Commands.Layouts._current l)) as [Hfits | Hbig].
    + rewrite add_accepted by (try assumption; lia).
      unfold Regions.well_formed. cbn. repeat split; try lia. exact Hchain.
    + rewrite add_rejected by now right. now repeat split.
Qed.

Lemma apply_well_formed (o : Regions.Op) (l : Commands.Layouts.t) :
  Regions.in_range o ->
  Regions.well_formed l -> Regions.well_formed (Regions.apply l o).
Proof.
  destruct o as [name size |]; cbn.
  - intros Hsize. apply add_well_formed. lia.
  - intros _ Hwf. unfold Commands.Layouts.lock.
    destruct (Commands.Layouts._lock l); exact Hwf.
Qed.

Lemma chained_facts (l : list Commands.Layout.t) :
  forall from upto : Z,
    (upto < 4294967296)%Z -> (0 <= from)%Z ->
    Regions.chained from l upto ->
    (from <= upto)%Z
    /\ Regions.total_size l = (upto - from)%Z
    /\ Forall (Regions.within from upto) l
    /\ StronglySorted Regions.before l.
Proof.
  induction l as [| x rest IH]; intros from upto Hmax Hfrom Hchain;
    cbn [Regions.chained] in Hchain.
  - subst. cbn. repeat split; try lia; constructor.
  - destruct Hchain as (Hstart & Hle & Hrest).
    destruct (IH (Commands.Layout._end x) upto Hmax ltac:(lia) Hrest)
      as (Hupto & Hsum & Hall & Hsorted).
    repeat split.
    + lia.
    + unfold Regions.total_size in *. cbn [fold_right]. rewrite Hsum.
      unfold Commands.Layout.size. rewrite u32_small by lia. lia.
    + constructor.
      * unfold Regions.within, Commands.Layout.start, Commands.Layout.end_. lia.
      * eapply Forall_impl; [| exact Hall].
        unfold Regions.within, Commands.Layout.start, Commands.Layout.end_.
        intros y Hy. lia.
    + constructor; [exact Hsorted |].
      eapply Forall_impl; [| exact Hall].
      unfold Regions.within, Regions.before, Commands.Layout.start, Commands.Layout.end_.
      intros y Hy. lia.
Qed.

(** X1: whatever [add] and [lock] calls a table built by [Layouts(size)]
    goes through, its regions stay in address order without gap or overlap:
    the first starts at [current()], each ends where the next starts, the
    last ends at the flash size, and none leaves the flash. *)
Theorem layouts_regions_stay_chained :
  forall (size : Z) (ops : list Regions.Op),
    (0 <= size < 4294967296)%Z ->
    Forall Regions.in_range ops ->
    let l := Regions.run ops (Commands.Layouts.make size) in
    Regions.chained (Commands.Layouts.current l) (Commands.Layouts._list l) size
    /\ (0 <= Commands.Layouts.current l <= size)%Z
    /\ Forall (Regions.within (Commands.Layouts.current l) size)
         (Commands.Layouts._list l)
    /\ StronglySorted Regions.before (Commands.Layouts._list l).
Proof.
  intros size ops Hsize Hops l.
  assert (Hwf : Regions.well_formed l /\ Commands.Layouts._size l = size).
  { subst l. unfold Regions.run.
    assert (Hstart : Regions.well_formed (Commands.Layouts.make size)
                     /\ Commands.Layouts._size (Commands.Layouts.make size) = size).
    { unfold Regions.well_formed. cbn. repeat split; lia. }
    revert Hstart. generalize (Commands.Layouts.make size).
    induction Hops as [| o ops Ho _ IH]; intros l0 [Hwf Hsz]; cbn.
    - now split.
    - apply IH. split; [now apply apply_well_formed |].
      destruct o as [name sz |]; cbn.
      + unfold Commands.Layouts.add.
        now destruct (negb (Commands.Layouts._lock l0) && (sz <=? Commands.Layouts._current l0)%Z).
      + unfold Commands.Layouts.lock. now destruct (Commands.Layouts._lock l0). }
  destruct Hwf as ((Hcur & Hmax & Hchain) & Hsz).
  rewrite Hsz in *. unfold Commands.Layouts.current.
  destruct (chained_facts (Commands.Layouts._list l) (Commands.Layouts._current l) size
              Hmax (proj1 Hcur) Hchain) as (_ & _ & Hall & Hsorted).
  repeat split; try assumption; lia.
Qed.

Lemma layouts_regions_stay_chained_witness :
  let l := Regions.run
             [Regions.Add "sdk" 16384; Regions.Add "huge" 2000000;
              Regions.Lock; Regions.Add "late" 4096]
             (Commands.Layouts.make 1048576) in
  Regions.chained (Commands.Layouts.current l) (Commands.Layouts._list l) 1048576
  /\ (0 <= Commands.Layouts.current l <= 1048576)%Z
  /\ Forall (Regions.within (Commands.Layouts.current l) 1048576)
       (Commands.Layouts._list l)
  /\ StronglySorted Regions.before (Commands.Layouts._list l).
Proof.
  apply (layouts_regions_stay_chained 1048576
           [Regions.Add "sdk" 16384; Regions.Add "huge" 2000000;
            Regions.Lock; Regions.Add "late" 4096]).
  - lia.
  - repeat constructor; cbn; lia.
Defined.

Lemma run_well_formed (ops : list Regions.Op) :
  Forall Regions.in_range ops ->
  forall l : Commands.Layouts.t,
    Regions.well_formed l -> Regions.well_formed (Regions.run ops l).
Proof.
  unfold Regions.run.
  induction 1 as [| o ops Ho _ IH]; intros l Hwf; cbn; [exact Hwf |].
  apply IH. now apply apply_well_formed.
Qed.

Lemma make_well_formed (size : Z) :
  (0 <= size < 4294967296)%Z -> Regions.well_formed (Commands.Layouts.make size).
Proof.
  intros Hsize. unfold Regions.well_formed. cbn. repeat split; lia.
Qed.

Lemma size_of_well_formed (l : Commands.Layouts.t) :
  Regions.well_formed l ->
  Commands.Layouts.size l = Regions.total_size (Commands.Layouts._list l)
  /\ Commands.Layouts.size l = (Commands.Layouts._size l - Commands.Layouts._current l)%Z.
Proof.
  intros (Hcur & Hmax & Hchain).
  destruct (chained_facts (Commands.Layouts._list l) (Commands.Layouts._current l)
              (Commands.Layouts._size l) Hmax (proj1 Hcur) Hchain) as (_ & Hsum & _).
  unfold Commands.Layouts.size. rewrite u32_small by lia. now rewrite Hsum.
Qed.

(** X2: after any [add] and [lock] calls on a table built by
    [Layouts(size)], [size()] is the sum of the sizes of the listed regions,
    and [size() + current()] is the flash size. *)
Theorem layouts_size_is_sum_of_regions :
  forall (size : Z) (ops : list Regions.Op),
    (0 <= size < 4294967296)%Z ->
    Forall Regions.in_range ops ->
    let l := Regions.run ops (Commands.Layouts.make size) in
    Commands.Layouts.size l = Regions.total_size (Commands.Layouts._list l)
    /\ (Commands.Layouts.size l + Commands.Layouts.current l)%Z = size.
Proof.
  intros size ops Hsize Hops l.
  assert (Hwf : Regions.well_formed l).
  { apply run_well_formed; [exact Hops | now apply make_well_formed]. }
  assert (Hsz : Commands.Layouts._size l = size).
  { subst l. unfold Regions.run.
    change size with (Commands.Layouts._size (Commands.Layouts.make size)) at 2.
    generalize (Commands.Layouts.make size). clear.
    induction ops as [| o ops IH]; intros l0; cbn; [reflexivity |].
    rewrite IH. destruct o as [name sz |]; cbn.
    - unfold Commands.Layouts.add.
      now destruct (negb (Commands.Layouts._lock l0) && (sz <=? Commands.Layouts._current l0)%Z).
    - unfold Commands.Layouts.lock. now destruct (Commands.Layouts._lock l0). }
  destruct (size_of_well_formed l Hwf) as [Hsum Hdiff].
  split; [exact Hsum |].
  rewrite Hdiff, Hsz. unfold Commands.Layouts.current. lia.
Qed.

Lemma layouts_size_is_sum_of_regions_witness :
  let l := Regions.run
             [Regions.Add "sdk" 16384; Regions.Add "huge" 2000000;
              Regions.Add "empty" 0; Regions.Add "eeprom" 8192]
             (Commands.Layouts.make 1048576) in
  Commands.Layouts.size l = Regions.total_size (Commands.Layouts._list l)
  /\ (Commands.Layouts.size l + Commands.Layouts.current l)%Z = 1048576%Z.
Proof.
  apply (layouts_size_is_sum_of_regions 1048576
           [Regions.Add "sdk" 16384; Regions.Add "huge" 2000000;
            Regions.Add "empty" 0; Regions.Add "eeprom" 8192]).
  - lia.
  - repeat constructor; cbn; lia.
Defined.

(** X3: [lock()] answers false the first time and true from then on, and
    once the table is locked no [add] or [lock] changes it any more. *)
Theorem layouts_locked_table_is_frozen :
  forall (l : Commands.Layouts.t) (ops : list Regions.Op),
    let locked := snd (Commands.Layouts.lock l) in
    fst (Commands.Layouts.lock l) = Commands.Layouts._lock l
    /\ fst (Commands.Layouts.lock locked) = true
    /\ Commands.Layouts._list locked = Commands.Layouts._list l
    /\ Regions.run ops locked = locked.
Proof.
  intros l ops locked.
  assert (Hlocked : Commands.Layouts._lock locked = true).
  { subst locked. unfold Commands.Layouts.lock.
    destruct (Commands.Layouts._lock l) eqn:Hl; cbn; [exact Hl | reflexivity]. }
  repeat split.
  - unfold Commands.Layouts.lock. now destruct (Commands.Layouts._lock l).
  - unfold Commands.Layouts.lock at 1. now rewrite Hlocked.
  - subst locked. unfold Commands.Layouts.lock. now destruct (Commands.Layouts._lock l).
  - revert Hlocked. generalize locked. clear. unfold Regions.run.
    induction ops as [| o ops IH]; intros l Hlocked; cbn; [reflexivity |].
    assert (Hsame : Regions.apply l o = l).
    { destruct o as [name size |]; cbn.
      - apply add_rejected. now left.
      - unfold Commands.Layouts.lock. now rewrite Hlocked. }
    rewrite Hsame. now apply IH.
Qed.

(** Masking a [uint32_t] with [~(FLASH_SECTOR_SIZE - 1)] rounds it down to
    a sector boundary. *)
Lemma sector_mask (x : Z) :
  (0 <= x < 4294967296)%Z ->
  Z.land x (Printf.u32 (Z.lnot (Commands.FLASH_SECTOR_SIZE - 1))) = (x - x mod 4096)%Z.
Proof.
  intros Hx.
  change (Printf.u32 (Z.lnot (Commands.FLASH_SECTOR_SIZE - 1)))
    with (Z.ldiff (Z.ones 32) (Z.ones 12)).
  assert (Hdiff : Z.land x (Z.ldiff (Z.ones 32) (Z.ones 12)) = Z.ldiff x (Z.ones 12)).
  { apply Z.bits_inj'. intros n Hn.
    rewrite Z.land_spec, !Z.ldiff_spec, !Z.testbit_ones_nonneg by lia.
    destruct (Z.ltb_spec n 32) as [Hlt | Hge]; [now rewrite andb_true_l |].
    assert (Hhigh : Z.testbit x n = false).
    { destruct (Z.eq_dec x 0) as [-> | Hnz]; [apply Z.bits_0 |].
      apply Z.bits_above_log2; [lia |].
      assert (Z.log2 x < 32)%Z by (apply Z.log2_lt_pow2; lia). lia. }
    now rewrite Hhigh. }
  rewrite Hdiff, Z.ldiff_ones_r by lia.
  rewrite Z.shiftl_mul_pow2, Z.shiftr_div_pow2 by lia.
  change (2 ^ 12)%Z with 4096%Z.
  pose proof (Z.div_mod x 4096 ltac:(lia)). lia.
Qed.

Lemma app_size_rounds (f : Commands.Flash) :
  (0 <= Commands.getSketchSize f <= 4294967296 - 4096)%Z ->
  Commands.app_size f =
    (4096 * ((Commands.getSketchSize f + 4095) / 4096))%Z.
Proof.
  intros Hsketch. unfold Commands.app_size.
  change Commands.FLASH_SECTOR_SIZE with 4096%Z at 1.
  rewrite (u32_small (Commands.getSketchSize f + 4096 - 1)) by lia.
  rewrite sector_mask by lia.
  replace (Commands.getSketchSize f + 4096 - 1)%Z
    with (Commands.getSketchSize f + 4095)%Z by lia.
  pose proof (Z.div_mod (Commands.getSketchSize f + 4095) 4096 ltac:(lia)). lia.
Qed.

(** X4: the size [storage] reserves for the application is the sketch size
    rounded up to a whole number of sectors: a multiple of 4096, not below
    the sketch size and less than one sector above it. *)
Theorem storage_app_size_is_sector_aligned :
  forall f : Commands.Flash,
    (0 <= Commands.getSketchSize f <= 4294967296 - 4096)%Z ->
    (Commands.app_size f mod 4096 = 0)%Z
    /\ (Commands.getSketchSize f <= Commands.app_size f)%Z
    /\ (Commands.app_size f < Commands.getSketchSize f + 4096)%Z.
Proof.
  intros f Hsketch. rewrite (app_size_rounds f Hsketch).
  pose proof (Z.mod_pos_bound (Commands.getSketchSize f + 4095) 4096 ltac:(lia)) as Hr.
  pose proof (Z.div_mod (Commands.getSketchSize f + 4095) 4096 ltac:(lia)) as Hdm.
  repeat split.
  - rewrite Z.mul_comm. apply Z.mod_mul. lia.
  - lia.
  - lia.
Qed.

Lemma storage_app_size_is_sector_aligned_witness :
  let f := {| Commands.getFlashChipId := 1458415;
              Commands.getFlashChipSpeed := 40000000;
              Commands.getFlashChipMode := "DOUT";
              Commands.getFlashChipRealSize := 4194304;
              Commands.getFlashChipSize := 1048576;
              Commands.eepromSpace := 8192;
              Commands.getSketchSize := 500001 |} in
  (Commands.app_size f mod 4096 = 0)%Z
  /\ (500001 <= Commands.app_size f)%Z
  /\ (Commands.app_size f < 500001 + 4096)%Z.
Proof.
  apply (storage_app_size_is_sector_aligned
           {| Commands.getFlashChipId := 1458415;
              Commands.getFlashChipSpeed := 40000000;
              Commands.getFlashChipMode := "DOUT";
              Commands.getFlashChipRealSize := 4194304;
              Commands.getFlashChipSize := 1048576;
              Commands.eepromSpace := 8192;
              Commands.getSketchSize := 500001 |}).
  cbn. lia.
Defined.

Lemma add_keeps_fields (name : string) (size : Z) (l : Commands.Layouts.t) :
  Commands.Layouts._lock (Commands.Layouts.add name size l) = Commands.Layouts._lock l
  /\ Commands.Layouts._size (Commands.Layouts.add name size l) = Commands.Layouts._size l.
Proof.
  unfold Commands.Layouts.add.
  now destruct (negb (Commands.Layouts._lock l) && (size <=? Commands.Layouts._current l)%Z).
Qed.

Lemma u32_in_range (z : Z) : (0 <= Printf.u32 z < 4294967296)%Z.
Proof.
  unfold Printf.u32. apply Z.mod_pos_bound. lia.
Qed.

Lemma app_size_in_range (f : Commands.Flash) :
  (0 <= Commands.app_size f < 4294967296)%Z.
Proof.
  unfold Commands.app_size.
  pose proof (u32_in_range
                (Commands.getSketchSize f + Commands.FLASH_SECTOR_SIZE - 1)) as Hx.
  rewrite sector_mask by exact Hx.
  pose proof (Z.mod_pos_bound
                (Printf.u32 (Commands.getSketchSize f + Commands.FLASH_SECTOR_SIZE - 1))
                4096 ltac:(lia)) as Hr.
  pose proof (Z.mod_le
                (Printf.u32 (Commands.getSketchSize f + Commands.FLASH_SECTOR_SIZE - 1))
                4096 ltac:(lia) ltac:(lia)) as Hle.
  lia.
Qed.

(** The table [storage] has built before it turns to the application is
    unlocked, well formed, and sized after the real flash size. *)
Lemma storage_reserved_facts (f : Commands.Flash) :
  Regions.flash_in_range f ->
  Regions.well_formed (Commands.storage_reserved f)
  /\ Commands.Layouts._lock (Commands.storage_reserved f) = false
  /\ Commands.Layouts._size (Commands.storage_reserved f) = Commands.getFlashChipRealSize f.
Proof.
  intros (Hreal & Hsdk & Heeprom & Hsketch).
  unfold Commands.storage_reserved.
  set (l0 := Commands.Layouts.make (Commands.getFlashChipRealSize f)).
  set (l1 := if (Commands.getFlashChipSize f <? Commands.getFlashChipRealSize f)%Z
             then Commands.Layouts.add "unused"
                    (Printf.u32 (Commands.getFlashChipRealSize f - Commands.getFlashChipSize f)) l0
             else l0).
  assert (H0 : Regions.well_formed l0
               /\ Commands.Layouts._lock l0 = false
               /\ Commands.Layouts._size l0 = Commands.getFlashChipRealSize f).
  { split; [now apply make_well_formed | split; reflexivity]. }
  assert (H1 : Regions.well_formed l1
               /\ Commands.Layouts._lock l1 = false
               /\ Commands.Layouts._size l1 = Commands.getFlashChipRealSize f).
  { subst l1. destruct (Commands.getFlashChipSize f <? Commands.getFlashChipRealSize f)%Z;
      [| exact H0].
    destruct H0 as (Hwf & Hlock & Hsize).
    destruct (add_keeps_fields "unused"
                (Printf.u32 (Commands.getFlashChipRealSize f - Commands.getFlashChipSize f)) l0)
      as [-> ->].
    split; [| now split].
    apply add_well_formed; [apply u32_in_range | exact Hwf]. }
  destruct H1 as (Hwf & Hlock & Hsize).
  destruct (add_keeps_fields "sdk" (4 * Commands.SPI_FLASH_SEC_SIZE) l1) as [Hl2 Hs2].
  destruct (add_keeps_fields "eeprom" (Commands.eepromSpace f)
              (Commands.Layouts.add "sdk" (4 * Commands.SPI_FLASH_SEC_SIZE) l1)) as [Hl3 Hs3].
  rewrite Hl3, Hs3, Hl2, Hs2. split; [| now split].
  apply add_well_formed; [lia |].
  apply add_well_formed; [unfold Commands.SPI_FLASH_SEC_SIZE; lia | exact Hwf].
Qed.

(** X5: when the sector-aligned sketch fits below what [storage] has
    reserved, the table it prints covers the whole flash: [app] from address
    0 to its aligned size, [ota] from there to the reserved regions, every
    region ending where the next starts and the last one at the real flash
    size. *)
Theorem storage_table_tiles_flash :
  forall f : Commands.Flash,
    Regions.flash_in_range f ->
    (Commands.app_size f <= Commands.Layouts.current (Commands.storage_reserved f))%Z ->
    let l := Commands.storage_layouts f in
    Commands.Layouts._list l =
      {| Commands.Layout._name := "app";
         Commands.Layout._start := 0;
         Commands.Layout._end := Commands.app_size f |}
      :: {| Commands.Layout._name := "ota";
            Commands.Layout._start := Commands.app_size f;
            Commands.Layout._end :=
              Commands.Layouts.current (Commands.storage_reserved f) |}
      :: Commands.Layouts._list (Commands.storage_reserved f)
    /\ Commands.Layouts.current l = 0%Z
    /\ Commands.Layouts.size l = Commands.getFlashChipRealSize f
    /\ Regions.chained 0 (Commands.Layouts._list l) (Commands.getFlashChipRealSize f).
Proof.
  intros f Hrange Hfits l.
  destruct (storage_reserved_facts f Hrange) as (Hwf & Hlock & Hsize).
  pose proof (app_size_in_range f) as Happ.
  pose proof Hwf as (Hcur & Hmax & Hchain).
  unfold Commands.Layouts.current in Hfits.
  assert (Hl : l =
    {| Commands.Layouts._lock := false;
       Commands.Layouts._list :=
         {| Commands.Layout._name := "app";
            Commands.Layout._start := 0;
            Commands.Layout._end := Commands.app_size f |}
         :: {| Commands.Layout._name := "ota";
               Commands.Layout._start := Commands.app_size f;
               Commands.Layout._end :=
                 Commands.Layouts._current (Commands.storage_reserved f) |}
         :: Commands.Layouts._list (Commands.storage_reserved f);
       Commands.Layouts._size := Commands.Layouts._size (Commands.storage_reserved f);
       Commands.Layouts._current := 0;
       Commands.Layouts._sectors :=
         Commands.Layouts._sectors (Commands.storage_reserved f) |}).
  { subst l. unfold Commands.storage_layouts, Commands.Layouts.current.
    rewrite (u32_small (Commands.Layouts._current (Commands.storage_reserved f)
                        - Commands.app_size f)) by lia.
    rewrite (add_accepted "ota") by (try assumption; lia).
    rewrite (add_accepted "app") by (cbn; lia).
    cbn. f_equal; [| lia].
    f_equal; [f_equal; lia |]. f_equal. f_equal. lia. }
  rewrite Hl. unfold Commands.Layouts.current, Commands.Layouts.size. cbn.
  rewrite Hsize in *. repeat split; try lia.
  - rewrite u32_small by lia. lia.
  - exact Hchain.
Qed.

Lemma storage_table_tiles_flash_witness :
  let f := {| Commands.getFlashChipId := 1458415;
              Commands.getFlashChipSpeed := 40000000;
              Commands.getFlashChipMode := "DOUT";
              Commands.getFlashChipRealSize := 4194304;
              Commands.getFlashChipSize := 1048576;
              Commands.eepromSpace := 8192;
              Commands.getSketchSize := 500001 |} in
  let l := Commands.storage_layouts f in
  Commands.Layouts._list l =
    {| Commands.Layout._name := "app";
       Commands.Layout._start := 0;
       Commands.Layout._end := Commands.app_size f |}
    :: {| Commands.Layout._name := "ota";
          Commands.Layout._start := Commands.app_size f;
          Commands.Layout._end :=
            Commands.Layouts.current (Commands.storage_reserved f) |}
    :: Commands.Layouts._list (Commands.storage_reserved f)
  /\ Commands.Layouts.current l = 0%Z
  /\ Commands.Layouts.size l = 4194304%Z
  /\ Regions.chained 0 (Commands.Layouts._list l) 4194304.
Proof.
  apply (storage_table_tiles_flash
           {| Commands.getFlashChipId := 1458415;
              Commands.getFlashChipSpeed := 40000000;
              Commands.getFlashChipMode := "DOUT";
              Commands.getFlashChipRealSize := 4194304;
              Commands.getFlashChipSize := 1048576;
              Commands.eepromSpace := 8192;
              Commands.getSketchSize := 500001 |}).
  - unfold Regions.flash_in_range. cbn. lia.
  - vm_compute. discriminate.
Defined.

(** X6: when the sector-aligned sketch is larger than what is left below
    the reserved regions, the subtraction for the [ota] size wraps around,
    both [add] calls are refused, and [storage] lists neither [ota] nor
    [app]: the table is the reserved one. *)
Theorem storage_drops_app_that_does_not_fit :
  forall f : Commands.Flash,
    Regions.flash_in_range f ->
    (Commands.Layouts.current (Commands.storage_reserved f) < Commands.app_size f)%Z ->
    Commands.storage_layouts f = Commands.storage_reserved f.
Proof.
  intros f Hrange Hbig.
  destruct (storage_reserved_facts f Hrange) as ((Hcur & Hmax & _) & _ & _).
  pose proof (app_size_in_range f) as Happ.
  unfold Commands.Layouts.current in Hbig.
  unfold Commands.storage_layouts, Commands.Layouts.current.
  assert (Hota : Printf.u32 (Commands.Layouts._current (Commands.storage_reserved f)
                             - Commands.app_size f) =
                 (Commands.Layouts._current (Commands.storage_reserved f)
                  - Commands.app_size f + 4294967296)%Z).
  { unfold Printf.u32.
    rewrite <- (Z.mod_add _ 1 4294967296) by lia.
    rewrite Z.mod_small by lia. lia. }
  rewrite Hota.
  rewrite (add_rejected "ota") by (right; lia).
  apply add_rejected. right. lia.
Qed.

Lemma storage_drops_app_that_does_not_fit_witness :
  let f := {| Commands.getFlashChipId := 1458415;
              Commands.getFlashChipSpeed := 40000000;
              Commands.getFlashChipMode := "QIO";
              Commands.getFlashChipRealSize := 1048576;
              Commands.getFlashChipSize := 1048576;
              Commands.eepromSpace := 8192;
              Commands.getSketchSize := 2000000 |} in
  Commands.storage_layouts f = Commands.storage_reserved f.
Proof.
  apply (storage_drops_app_that_does_not_fit
           {| Commands.getFlashChipId := 1458415;
              Commands.getFlashChipSpeed := 40000000;
              Commands.getFlashChipMode := "QIO";
              Commands.getFlashChipRealSize := 1048576;
              Commands.getFlashChipSize := 1048576;
              Commands.eepromSpace := 8192;
              Commands.getSketchSize := 2000000 |}).
  - unfold Regions.flash_in_range. cbn. lia.
  - vm_compute. reflexivity.
Defined.

(** ** The comparison of command names *)

Lemma ascii_of_nat_injective (m n : nat) :
  m < 256 -> n < 256 -> ascii_of_nat m = ascii_of_nat n -> m = n.
Proof.
  intros Hm Hn Heq. apply (f_equal nat_of_ascii) in Heq.
  now rewrite !nat_ascii_embedding in Heq by assumption.
Qed.

Lemma lower_head_equal (c d : ascii) :
  ascii_of_nat (tolower (nat_of_ascii c)) = ascii_of_nat (tolower (nat_of_ascii d)) ->
  tolower (nat_of_ascii c) = tolower (nat_of_ascii d).
Proof.
  apply ascii_of_nat_injective; apply tolower_bounded.
Qed.

Lemma prefix_cons (c d : ascii) (a b : string) :
  prefix (String c a) (String d b) = true -> c = d /\ prefix a b = true.
Proof.
  cbn. destruct (ascii_dec c d) as [-> | _]; [now split | discriminate].
Qed.

Lemma name_less_prefix (a : string) :
  forall b : string,
    HelpOrder.c_string a = true ->
    prefix (lower a) (lower b) = true ->
    Commands.name_less a b = false.
Proof.
  unfold Commands.name_less.
  induction a as [| c a IH]; intros b Hc Hprefix; [reflexivity |].
  destruct b as [| d b]; [discriminate |].
  cbn [lower] in Hprefix. apply prefix_cons in Hprefix as [Hhead Hprefix].
  apply lower_head_equal in Hhead.
  cbn in Hc. apply andb_true_iff in Hc as [Hnul Hc].
  apply negb_true_iff, Nat.eqb_neq in Hnul.
  cbn [String.length strncasecmp peek advance].
  rewrite Hhead, Nat.eqb_refl. cbn [negb].
  destruct (Nat.eqb_spec (tolower (nat_of_ascii d)) 0) as [Hzero | _].
  - rewrite <- Hhead in Hzero. apply tolower_zero in Hzero. contradiction.
  - now apply IH.
Qed.

Lemma name_less_extension (a : string) :
  forall b : string,
    HelpOrder.c_string b = true ->
    prefix (lower a) (lower b) = true ->
    Commands.name_less b a = false.
Proof.
  unfold Commands.name_less.
  induction a as [| c a IH]; intros b Hc Hprefix.
  - destruct b as [| d b]; [reflexivity |].
    cbn in Hc. apply andb_true_iff in Hc as [Hnul _].
    apply negb_true_iff, Nat.eqb_neq in Hnul.
    cbn [String.length strncasecmp peek advance]. change (tolower 0) with 0.
    destruct (Nat.eqb_spec (tolower (nat_of_ascii d)) 0) as [Hzero | _].
    + apply tolower_zero in Hzero. contradiction.
    + cbn [negb]. apply Z.ltb_ge. lia.
  - destruct b as [| d b]; [discriminate |].
    cbn [lower] in Hprefix. apply prefix_cons in Hprefix as [Hhead Hprefix].
    apply lower_head_equal in Hhead.
    cbn in Hc. apply andb_true_iff in Hc as [Hnul Hc].
    apply negb_true_iff, Nat.eqb_neq in Hnul.
    cbn [String.length strncasecmp peek advance].
    rewrite Hhead, Nat.eqb_refl. cbn [negb].
    destruct (Nat.eqb_spec (tolower (nat_of_ascii d)) 0) as [Hzero | _].
    + apply tolower_zero in Hzero. contradiction.
    + now apply IH.
Qed.

(** X7: whenever one name is, letter case aside, a prefix of another, the
    comparison [help] sorts with puts neither before the other; when these
    two are the only names registered, [help] prints them in the order they
    were registered in, whichever that is. *)
Theorem help_keeps_registration_order_of_prefixes :
  forall a b : string,
    HelpOrder.c_string a = true ->
    HelpOrder.c_string b = true ->
    prefix (lower a) (lower b) = true ->
    Commands.name_less a b = false
    /\ Commands.name_less b a = false
    /\ Commands.std_sort Commands.name_less [a; b] = [a; b]
    /\ Commands.std_sort Commands.name_less [b; a] = [b; a].
Proof.
  intros a b Ha Hb Hprefix.
  pose proof (name_less_prefix a b Ha Hprefix) as Hab.
  pose proof (name_less_extension a b Hb Hprefix) as Hba.
  repeat split; try assumption; cbn; now rewrite ?Hab, ?Hba.
Qed.

Lemma help_keeps_registration_order_of_prefixes_witness :
  Commands.name_less "wifi" "WIFI.SCAN" = false
  /\ Commands.name_less "WIFI.SCAN" "wifi" = false
  /\ Commands.std_sort Commands.name_less ["wifi"; "WIFI.SCAN"] = ["wifi"; "WIFI.SCAN"]
  /\ Commands.std_sort Commands.name_less ["WIFI.SCAN"; "wifi"] = ["WIFI.SCAN"; "wifi"].
Proof.
  apply (help_keeps_registration_order_of_prefixes "wifi" "WIFI.SCAN");
    reflexivity.
Defined.

(** With a third name registered the two may change places: [AB] is
    registered before [ABC] and printed after it. *)
Example help_prefix_pair_reversed_by_third_name :
  Commands.std_sort Commands.name_less ["ABD"; "AB"; "ABC"] = ["ABC"; "ABD"; "AB"].
Proof.
  reflexivity.
Qed.

(** X8: the comparison never puts two names each before the other; in
    particular no name comes before itself. *)
Theorem name_less_asymmetric :
  forall a b : string,
    Commands.name_less a b = true -> Commands.name_less b a = false.
Proof.
  unfold Commands.name_less.
  induction a as [| c a IH]; intros b Hless; [discriminate |].
  destruct b as [| d b]; [reflexivity |].
  cbn [String.length strncasecmp peek advance] in *.
  rewrite (Nat.eqb_sym (tolower (nat_of_ascii d))).
  destruct (Nat.eqb_spec (tolower (nat_of_ascii c)) (tolower (nat_of_ascii d)))
    as [Hsame | Hdiffer]; cbn [negb] in *.
  - rewrite <- Hsame.
    destruct (tolower (nat_of_ascii c) =? 0)%nat; [discriminate |].
    now apply IH.
  - apply Z.ltb_lt in Hless. apply Z.ltb_ge. lia.
Qed.

Lemma name_less_asymmetric_witness :
  Commands.name_less "Adc" "INFO" = true /\ Commands.name_less "INFO" "Adc" = false.
Proof.
  split; [reflexivity |].
  apply (name_less_asymmetric "Adc" "INFO"). reflexivity.
Defined.

Lemma setup_names_c_strings :
  Forall (fun a => HelpOrder.c_string a = true) Commands.setup_names.
Proof.
  repeat constructor.
Qed.

Lemma setup_names_without_prefixes (a b : string) :
  In a Commands.setup_names -> In b Commands.setup_names ->
  HelpOrder.proper_prefix a b = false.
Proof.
  intros Ha Hb.
  assert (Hall : forallb
                   (fun x => forallb (fun y => negb (HelpOrder.proper_prefix x y))
                               Commands.setup_names)
                   Commands.setup_names = true) by (vm_compute; reflexivity).
  rewrite forallb_forall in Hall. specialize (Hall a Ha).
  rewrite forallb_forall in Hall. specialize (Hall b Hb).
  now apply negb_true_iff in Hall.
Qed.

(** X9: in whatever order [terminal::names()] returns the commands this
    file registers, [help] prints all of them in case-insensitive
    lexicographic order after the heading, and then OK. *)
Theorem help_sorts_own_commands :
  forall (names : list string) (ctx : Commands.CommandContext) (w : Dns.World),
    Permutation Commands.setup_names names ->
    exists printed,
      Permutation Commands.setup_names printed
      /\ HelpOrder.sorted printed = true
      /\ Dns.sink (Commands.help names ctx w) =
           (Dns.sink w
              ++ [Print ("Available commands:" ++ LF)]
              ++ map (fun name => Print ("> " ++ name ++ LF)) printed
              ++ [OK])%list.
Proof.
  intros names ctx w Hperm.
  destruct (help_sorted_without_prefixes names ctx w) as (printed & Hp & Hs & Hout).
  - rewrite <- (Permutation_length Hperm). cbn. lia.
  - apply (Permutation_Forall Hperm). exact setup_names_c_strings.
  - intros a b Ha Hb. apply setup_names_without_prefixes.
    + apply (Permutation_in a (Permutation_sym Hperm) Ha).
    + apply (Permutation_in b (Permutation_sym Hperm) Hb).
  - exists printed. split; [| now split].
    now transitivity names.
Qed.

Lemma help_sorts_own_commands_witness :
  exists printed,
    Permutation Commands.setup_names printed
    /\ HelpOrder.sorted printed = true
    /\ Dns.sink (Commands.help (rev Commands.setup_names)
                   {| Commands.argv := ["HELP"] |} Dns.idle) =
         ([Print ("Available commands:" ++ LF)]
            ++ map (fun name => Print ("> " ++ name ++ LF)) printed
            ++ [OK])%list.
Proof.
  apply (help_sorts_own_commands (rev Commands.setup_names)
           {| Commands.argv := ["HELP"] |} Dns.idle).
  apply Permutation_rev.
Defined.

(** ** The host command and the task slot over time *)

Lemma wait_idle_ticks (idle_ticks : list Commands.Tick) :
  Forall (fun t => t = None) idle_ticks ->
  forall (later : list Commands.Tick) (w : Dns.World),
    Dns.started w = true ->
    Commands.wait (idle_ticks ++ later) w = Commands.wait later w.
Proof.
  induction 1 as [| t idle_ticks Ht _ IH]; intros later w Hpending; [reflexivity |].
  subst t. cbn [app Commands.wait]. rewrite Hpending. cbn [Commands.delay].
  now apply IH.
Qed.

Lemma host_with_hostname
    (dns_gethostbyname : string -> ip_addr_t -> err_t * ip_addr_t)
    (command hostname : string) (ticks : list Commands.Tick) (w : Dns.World) :
  Commands.host dns_gethostbyname {| Commands.argv := [command; hostname] |} ticks w =
    Commands.wait ticks
      (Dns.start dns_gethostbyname hostname Commands.host_callback w).
Proof.
  reflexivity.
Qed.

(** X10: when the resolver cannot answer at once, [host] sits in its wait
    loop through every [delay] in which nothing arrives, and returns in the
    one during which the completion is delivered: it has then printed
    exactly the line for the delivered name and address, the slot is empty
    again, and the ticks after that one are not consumed. *)
Theorem host_returns_on_completion :
  forall (dns_gethostbyname : string -> ip_addr_t -> err_t * ip_addr_t)
         (command hostname : string) (a : ip_addr_t)
         (idle_ticks later : list Commands.Tick) (c : Dns.Completion) (w : Dns.World),
    Dns.started w = false ->
    dns_gethostbyname hostname IPADDR_NONE = (ERR_INPROGRESS, a) ->
    Forall (fun t => t = None) idle_ticks ->
    exists w',
      Commands.host dns_gethostbyname {| Commands.argv := [command; hostname] |}
        (idle_ticks ++ Some c :: later) w = Some (w', later)
      /\ Dns.sink w' = Dns.cb_run Commands.host_callback (fst c) (snd c) (Dns.sink w)
      /\ Dns.invoked w' =
           (Dns.invoked w ++ [{| Dns.who := 0; Dns.name := fst c; Dns.addr := snd c |}])%list
      /\ Dns.started w' = false.
Proof.
  intros resolver command hostname a idle_ticks later c w Hidle Hreply Hticks.
  rewrite host_with_hostname.
  rewrite (start_cases resolver hostname Commands.host_callback w ERR_INPROGRESS a Hreply).
  cbn [Z.eqb ERR_INPROGRESS ERR_OK].
  rewrite wait_idle_ticks by (assumption || reflexivity).
  cbn [Commands.wait Dns.started Dns.task Dns.set_task Commands.delay].
  unfold Dns.deliver.
  erewrite found_callback_pending by reflexivity.
  eexists. split; [apply wait_idle; reflexivity |].
  cbn. repeat split.
Qed.

Lemma host_returns_on_completion_witness :
  exists w',
    Commands.host (fun _ a => (ERR_INPROGRESS, a))
      {| Commands.argv := ["HOST"; "example.com"] |}
      [None; None; Some ("example.com", Some 16777343%Z); None] Dns.idle =
      Some (w', [None])
    /\ Dns.sink w' = [Print ("example.com has address 127.0.0.1" ++ LF)]
    /\ Dns.invoked w' =
         [{| Dns.who := 0; Dns.name := "example.com"; Dns.addr := Some 16777343%Z |}]
    /\ Dns.started w' = false.
Proof.
  apply (host_returns_on_completion (fun _ a => (ERR_INPROGRESS, a))
           "HOST" "example.com" IPADDR_NONE [None; None] [None]
           ("example.com", Some 16777343%Z) Dns.idle eq_refl eq_refl).
  repeat constructor.
Defined.

(** X11: [host] has no timeout: when the resolver has accepted the request
    and no completion is ever delivered, the wait loop is still running
    after any number of [delay] calls. *)
Theorem host_waits_without_timeout :
  forall (dns_gethostbyname : string -> ip_addr_t -> err_t * ip_addr_t)
         (command hostname : string) (a : ip_addr_t)
         (idle_ticks : list Commands.Tick) (w : Dns.World),
    dns_gethostbyname hostname IPADDR_NONE = (ERR_INPROGRESS, a) ->
    Forall (fun t => t = None) idle_ticks ->
    Commands.host dns_gethostbyname {| Commands.argv := [command; hostname] |}
      idle_ticks w = None.
Proof.
  intros resolver command hostname a idle_ticks w Hreply Hticks.
  rewrite host_with_hostname.
  rewrite (start_cases resolver hostname Commands.host_callback w ERR_INPROGRESS a Hreply).
  cbn [Z.eqb ERR_INPROGRESS ERR_OK].
  rewrite <- (app_nil_r idle_ticks).
  rewrite wait_idle_ticks by (assumption || reflexivity).
  reflexivity.
Qed.

Lemma host_waits_without_timeout_witness :
  Commands.host (fun _ a => (ERR_INPROGRESS, a))
    {| Commands.argv := ["HOST"; "example.com"] |}
    [None; None; None; None; None] Dns.idle = None.
Proof.
  apply (host_waits_without_timeout (fun _ a => (ERR_INPROGRESS, a))
           "HOST" "example.com" IPADDR_NONE [None; None; None; None; None] Dns.idle eq_refl).
  repeat constructor.
Defined.

Lemma host_callback_prints (n : string) (a : option ip_addr_t) (out : Sink) :
  exists text, Dns.cb_run Commands.host_callback n a out = (out ++ [Print text])%list.
Proof.
  destruct a as [a |]; cbn; eexists; reflexivity.
Qed.

Lemma wait_for_host_callback (ticks : list Commands.Tick) :
  forall (w w' : Dns.World) (rest : list Commands.Tick) (t : Dns.Task),
    Dns.task w = Some t ->
    Dns._callback t = Commands.host_callback ->
    Commands.wait ticks w = Some (w', rest) ->
    exists text, Dns.sink w' = (Dns.sink w ++ [Print text])%list.
Proof.
  induction ticks as [| tick ticks IH]; intros w w' rest t Htask Hcb Hwait;
    cbn [Commands.wait] in Hwait; unfold Dns.started in Hwait; rewrite Htask in Hwait.
  - discriminate.
  - destruct tick as [c |]; cbn [Commands.delay] in Hwait.
    + unfold Dns.deliver in Hwait.
      rewrite (found_callback_pending t _ _ w Htask) in Hwait.
      rewrite wait_idle in Hwait by reflexivity.
      injection Hwait as <- _. cbn [Dns.sink]. rewrite Hcb.
      apply host_callback_prints.
    + exact (IH w w' rest t Htask Hcb Hwait).
Qed.

(** X12: called with a hostname while no task is pending, [host] never
    writes a status marker: whenever it returns it has written either
    nothing or one line of text, and neither OK nor an error. *)
Theorem host_writes_no_status :
  forall (dns_gethostbyname : string -> ip_addr_t -> err_t * ip_addr_t)
         (command hostname : string) (ticks rest : list Commands.Tick)
         (w w' : Dns.World),
    Dns.started w = false ->
    Commands.host dns_gethostbyname {| Commands.argv := [command; hostname] |}
      ticks w = Some (w', rest) ->
    exists written,
      Dns.sink w' = (Dns.sink w ++ written)%list
      /\ List.length written <= 1
      /\ Forall Observed.is_print written.
Proof.
  intros resolver command hostname ticks rest w w' Hidle Hhost.
  rewrite host_with_hostname in Hhost.
  destruct (resolver hostname IPADDR_NONE) as [e a] eqn:Hreply.
  rewrite (start_cases resolver hostname Commands.host_callback w e a Hreply) in Hhost.
  apply started_idle in Hidle.
  destruct (e =? ERR_OK)%Z; [| destruct (e =? ERR_INPROGRESS)%Z].
  - rewrite wait_idle in Hhost by (apply started_idle; exact Hidle).
    injection Hhost as <- _. cbn [Dns.sink Dns.call Dns.log_lookup].
    destruct (host_callback_prints hostname (Some a) (Dns.sink w)) as [text ->].
    exists [Print text]. repeat split; [cbn; lia | repeat constructor].
  - destruct (wait_for_host_callback ticks
                (Dns.set_task
                   (Some {| Dns._hostname := hostname;
                            Dns._callback := Commands.host_callback;
                            Dns._addr := a |})
                   (Dns.log_lookup hostname w))
                w' rest
                {| Dns._hostname := hostname;
                   Dns._callback := Commands.host_callback;
                   Dns._addr := a |}
                eq_refl eq_refl Hhost)
      as [text Hsink].
    exists [Print text]. cbn [Dns.sink Dns.set_task Dns.log_lookup] in Hsink.
    repeat split; [exact Hsink | cbn; lia | repeat constructor].
  - rewrite wait_idle in Hhost by (apply started_idle; exact Hidle).
    injection Hhost as <- _. exists []. cbn. rewrite app_nil_r.
    repeat split; [lia | constructor].
Qed.

Lemma host_writes_no_status_witness :
  exists written,
    [Print ("localhost has address 127.0.0.1" ++ LF)] = ([] ++ written)%list
    /\ List.length written <= 1
    /\ Forall Observed.is_print written.
Proof.
  exact (host_writes_no_status (fun _ _ => (ERR_OK, 16777343%Z))
           "HOST" "localhost" [None] [None] Dns.idle
           {| Dns.task := None;
              Dns.invoked := [{| Dns.who := 0; Dns.name := "localhost";
                                 Dns.addr := Some 16777343%Z |}];
              Dns.lookups := ["localhost"];
              Dns.sink := [Print ("localhost has address 127.0.0.1" ++ LF)] |}
           eq_refl eq_refl).
Defined.

Lemma step_bound (s : Dns.Step) (w : Dns.World) :
  List.length (Dns.invoked (Dns.step s w)) + Observed.owed (Dns.step s w)
  <= List.length (Dns.invoked w) + Observed.owed w + Observed.started_count [s].
Proof.
  unfold Observed.owed, Dns.started.
  destruct s as [c | [e a] hostname callback]; cbn [Dns.step Observed.started_count].
  - unfold Dns.deliver. destruct (Dns.task w) as [t |] eqn:Htask.
    + rewrite (found_callback_pending t _ _ w Htask).
      cbn [Dns.invoked Dns.task]. rewrite length_app. cbn. lia.
    + rewrite found_callback_idle by assumption. rewrite Htask. lia.
  - rewrite (start_cases (fun _ _ => (e, a)) hostname callback w e a eq_refl).
    destruct (e =? ERR_OK)%Z; [| destruct (e =? ERR_INPROGRESS)%Z].
    + cbn [Dns.call Dns.log_lookup Dns.invoked Dns.task].
      rewrite length_app. cbn [List.length]. lia.
    + cbn [Dns.set_task Dns.log_lookup Dns.invoked Dns.task].
      destruct (Dns.task w); lia.
    + cbn [Dns.log_lookup Dns.invoked Dns.task]. lia.
Qed.

(** X13: over any sequence of [start] calls and completions beginning with
    an empty slot, the callbacks invoked so far, plus the one still owed when
    a task is pending, never outnumber the [start] calls made. *)
Theorem dns_callbacks_bounded_by_starts :
  forall steps : list Dns.Step,
    List.length (Dns.invoked (Dns.run steps Dns.idle))
      + Observed.owed (Dns.run steps Dns.idle)
    <= Observed.started_count steps.
Proof.
  intros steps.
  assert (Hgen : forall w,
             List.length (Dns.invoked (Dns.run steps w)) + Observed.owed (Dns.run steps w)
             <= List.length (Dns.invoked w) + Observed.owed w
                + Observed.started_count steps).
  { unfold Dns.run. induction steps as [| s steps IH]; intros w; cbn [fold_left].
    - cbn. lia.
    - specialize (IH (Dns.step s w)). pose proof (step_bound s w) as Hstep.
      destruct s; cbn [Observed.started_count] in *; lia. }
  specialize (Hgen Dns.idle). cbn in Hgen. lia.
Qed.

(** X21: every [start] hands its hostname to the resolver, also while
    another task is pending, and nothing else ever does: the requests the
    resolver has received are the hostnames of the [start] calls, in
    order. *)
Theorem dns_every_start_reaches_resolver :
  forall (steps : list Dns.Step) (w : Dns.World),
    Dns.lookups (Dns.run steps w) =
      (Dns.lookups w ++ Observed.started_hostnames steps)%list.
Proof.
  unfold Dns.run. induction steps as [| s steps IH]; intros w; cbn [fold_left].
  - cbn. now rewrite app_nil_r.
  - rewrite IH. destruct s as [c | [e a] hostname callback];
      cbn [Dns.step Observed.started_hostnames].
    + unfold Dns.deliver, Dns.found_callback. now destruct (Dns.task w).
    + rewrite (start_cases (fun _ _ => (e, a)) hostname callback w e a eq_refl).
      destruct (e =? ERR_OK)%Z; [| destruct (e =? ERR_INPROGRESS)%Z];
        cbn; now rewrite <- app_assoc.
Qed.

(** ** What the serial loop puts on the port *)

Lemma drain_events {B : Type} {ops : Serial.LineBuffer B} (fuel : nat) :
  forall (b b' : B) (port port' : Serial.Port),
    Serial.drain fuel b port = Some (b', port') ->
    exists events,
      port' = (port ++ events)%list /\ Forall Observed.drained_event events.
Proof.
  induction fuel as [| fuel IH]; intros b b' port port' Hdrain; [discriminate |].
  cbn [Serial.drain] in Hdrain.
  destruct (Serial.buffer_line b) as [r b1].
  destruct (Serial.overflow r).
  - destruct (IH _ _ _ _ Hdrain) as (events & -> & Hall).
    exists (Serial.PortError "Command line buffer overflow" :: events).
    split; [now rewrite <- app_assoc |].
    constructor; [reflexivity | exact Hall].
  - destruct (String.length (Serial.line r) =? 0)%nat eqn:Hlen.
    + injection Hdrain as <- <-. exists []. split; [now rewrite app_nil_r | constructor].
    + destruct (IH _ _ _ _ Hdrain) as (events & -> & Hall).
      exists (Serial.FindAndCall (Serial.line r) :: events).
      split; [now rewrite <- app_assoc |].
      constructor; [| exact Hall].
      cbn. intros Hempty. rewrite Hempty in Hlen. discriminate.
Qed.

(** X14: whatever the line buffer does, a poll of [serial::loop] that
    returns has put on the port, in this order: the [Serial buffer overflow]
    diagnostic if and only if the buffer reported raw overflow after the
    append, then only [Command line buffer overflow] diagnostics and calls of
    [find_and_call] with a non-empty line. An empty line is never
    dispatched. *)
Theorem serial_loop_port_events :
  forall (B : Type) (ops : Serial.LineBuffer B) (fuel : nat) (rx : string)
         (b b' : B) (port port' : Serial.Port),
    rx <> "" ->
    Serial.loop fuel rx b port = Some (b', port') ->
    exists events,
      port' =
        (port
           ++ (if Serial.buffer_overflow (Serial.buffer_append b rx)
               then [Serial.PortError "Serial buffer overflow"] else [])
           ++ events)%list
      /\ Forall Observed.drained_event events.
Proof.
  intros B ops fuel rx b b' port port' Hrx Hloop.
  unfold Serial.loop in Hloop.
  destruct rx as [| c rx]; [contradiction |].
  cbn [String.length Nat.leb] in Hloop.
  destruct (Serial.buffer_overflow (Serial.buffer_append b (String c rx)));
    destruct (drain_events fuel _ _ _ _ Hloop) as (events & -> & Hall);
    exists events; split; try assumption.
  - now rewrite <- app_assoc.
  - reflexivity.
Qed.

Lemma serial_loop_port_events_witness :
  exists events,
    [Serial.FindAndCall "help"; Serial.PortError "Command line buffer overflow"] =
      ([] ++ [] ++ events)%list
    /\ Forall Observed.drained_event events.
Proof.
  exact (serial_loop_port_events SpecLineBuffer.Buffer SpecLineBuffer.ops 3
           ("help" ++ LF ++ "aaaaaaaaaaaa") (SpecLineBuffer.empty 32 8)
           (SpecLineBuffer.empty 32 8) []
           [Serial.FindAndCall "help"; Serial.PortError "Command line buffer overflow"]
           ltac:(discriminate) eq_refl).
Defined.

(** ** What the message transports schedule *)

Lemma endsWith_appended (s : string) : endsWith (s ++ LF) LF = true.
Proof.
  apply endsWith_iff. now exists s.
Qed.

(** The two [endsWith] tests and the append, as every adapter that has them
    writes them: the result ends in a line feed, and is the text itself or
    the text with one line feed added when it had none. *)
Lemma terminated_line (cmd : string) :
  let sent := if negb (endsWith cmd CRLF) && negb (endsWith cmd LF)
              then cmd ++ LF else cmd in
  endsWith sent LF = true
  /\ ((sent = cmd /\ endsWith cmd LF = true)
      \/ (sent = cmd ++ LF /\ endsWith cmd LF = false)).
Proof.
  cbn zeta.
  destruct (endsWith cmd LF) eqn:Hlf.
  - rewrite andb_false_r. split; [exact Hlf | now left].
  - destruct (endsWith cmd CRLF) eqn:Hcrlf.
    + apply endsWith_CRLF_LF in Hcrlf. congruence.
    + cbn. split; [apply endsWith_appended | now right].
Qed.



Lemma param_missing (api : Api.ApiRequest) (key : string) :
  (forall value, ~ In (key, value) api) -> Api.param api key = "".
Proof.
  induction api as [| [k v] api IH]; intros Hmissing; cbn; [reflexivity |].
  destruct (String.eqb_spec k key) as [-> | _].
  - exfalso. apply (Hmissing v). now left.
  - apply IH. intros value Hin. apply (Hmissing value). now right.
Qed.

(** X16: the HTTP API handler refuses a request (returns false, schedules
    nothing) exactly when the [line] parameter is missing or empty;
    otherwise it accepts it and the command it schedules ends in a line
    feed, being the parameter itself or the parameter plus one line feed. *)
Theorem api_put_schedules_terminated_commands :
  forall api : Api.ApiRequest,
    ((forall value, ~ In ("line", value) api) -> Api.put api = (false, None))
    /\ (Api.param api "line" = "" <-> Api.put api = (false, None))
    /\ (Api.param api "line" <> "" ->
        exists cmd,
          Api.put api = (true, Some cmd)
          /\ endsWith cmd LF = true
          /\ ((cmd = Api.param api "line" /\ endsWith cmd LF = true)
              \/ (cmd = Api.param api "line" ++ LF
                  /\ endsWith (Api.param api "line") LF = false))).
Proof.
  intros api.
  assert (Hempty : Api.param api "line" = "" <-> Api.put api = (false, None)).
  { unfold Api.put. destruct (Api.param api "line") as [| c rest]; cbn.
    - split; reflexivity.
    - split; discriminate. }
  split; [| split; [exact Hempty |]].
  - intros Hmissing. apply Hempty. now apply param_missing.
  - intros Hnonempty. unfold Api.put.
    destruct (Api.param api "line") as [| c rest] eqn:Hparam; [contradiction |].
    cbn [String.length Nat.eqb].
    destruct (terminated_line (String c rest)) as [Hends Hshape].
    eexists. split; [reflexivity |]. split; [exact Hends |].
    destruct Hshape as [[Heq Hlf] | [Heq Hlf]]; [left | right]; split; assumption.
Qed.

Lemma api_put_schedules_terminated_commands_witness :
  Api.put [("other", "x")] = (false, None)
  /\ exists cmd,
       Api.put [("line", "help")] = (true, Some cmd)
       /\ endsWith cmd LF = true
       /\ ((cmd = "help" /\ endsWith cmd LF = true)
           \/ (cmd = "help" ++ LF /\ endsWith "help" LF = false)).
Proof.
  split.
  - destruct (api_put_schedules_terminated_commands [("other", "x")]) as (Hmissing & _).
    apply Hmissing. intros value [Heq | []]. discriminate.
  - destruct (api_put_schedules_terminated_commands [("line", "help")]) as (_ & _ & Hrun).
    apply Hrun. discriminate.
Defined.

Lemma strncmp_prefix (p : string) :
  HelpOrder.c_string p = true ->
  forall s : string,
    (strncmp s p (String.length p) =? 0)%Z = prefix p s.
Proof.
  induction p as [| d p IH]; intros Hc s; [now destruct s |].
  cbn in Hc. apply andb_true_iff in Hc as [Hnul Hc].
  apply negb_true_iff, Nat.eqb_neq in Hnul.
  cbn [String.length strncmp peek advance].
  destruct s as [| c s]; cbn [peek advance prefix].
  - destruct (Nat.eqb_spec 0 (nat_of_ascii d)) as [Heq | _]; [lia |].
    cbn [negb]. apply Z.eqb_neq. lia.
  - destruct (Nat.eqb_spec (nat_of_ascii c) (nat_of_ascii d)) as [Heq | Hne]; cbn [negb].
    + assert (c = d) as ->.
      { apply (f_equal ascii_of_nat) in Heq. now rewrite !ascii_nat_embedding in Heq. }
      destruct (ascii_dec d d) as [_ | Hdd]; [| now contradiction Hdd].
      destruct (Nat.eqb_spec (nat_of_ascii d) 0) as [Hz | _]; [contradiction |].
      now apply IH.
    + destruct (ascii_dec d c) as [-> | _]; [now contradiction Hne |].
      apply Z.eqb_neq. lia.
Qed.

(** X17: the web-socket handler schedules a command exactly when the action
    name begins with [cmd] (only its first three characters are compared),
    the [line] member is a string and that string is not empty; what it
    schedules, for the client that sent the action, is that string. *)
Theorem web_action_accepted_iff :
  forall (client_id : nat) (action : string) (data : Web.JsonObject) (cmd : string),
    Web.onAction client_id action data = Some (client_id, cmd)
    <-> prefix "cmd" action = true
        /\ Web.get data "line" = Some (Web.JsonString cmd)
        /\ cmd <> "".
Proof.
  intros client_id action data cmd. unfold Web.onAction, Web.containsKey, Web.Key.
  change 3 with (String.length "cmd").
  rewrite (strncmp_prefix "cmd" eq_refl action).
  destruct (prefix "cmd" action).
  - cbn [negb].
    destruct (Web.get data "line") as [[s | z | b |] |]; cbn;
      try (split; [discriminate | intros (_ & Hget & _); discriminate]).
    destruct s as [| c s]; cbn.
    + split; [discriminate |]. intros (_ & Hget & Hne). injection Hget as <-. contradiction.
    + split.
      * intros Heq. injection Heq as <-. repeat split. discriminate.
      * intros (_ & Hget & _). now injection Hget as <-.
  - cbn [negb]. split; [discriminate | intros [Hfalse _]; discriminate].
Qed.

Lemma web_action_accepted_iff_witness :
  Web.onAction 7 "cmdline" [("line", Web.JsonString "help")] = Some (7, "help").
Proof.
  apply (web_action_accepted_iff 7 "cmdline" [("line", Web.JsonString "help")] "help").
  repeat split. discriminate.
Defined.

(** X18: the handler registered when the API module is left out runs a
    command only for an authenticated request to the terminal path that
    carries a non-empty [line] parameter of the kind the method calls for,
    and the command ends in a line feed; a request to another path is not
    handled at all, and an unauthenticated one is answered 403 whatever it
    carries. *)
Theorem api_fallback_runs_only_authenticated :
  forall (API_BASE_PATH termWebApiPath : string) (request : Api.AsyncWebServerRequest),
    (Api.url request <> API_BASE_PATH ++ termWebApiPath ->
     Api.request_handler API_BASE_PATH termWebApiPath request = (false, None))
    /\ (Api.url request = API_BASE_PATH ++ termWebApiPath ->
        Api.apiAuthenticate request = false ->
        Api.request_handler API_BASE_PATH termWebApiPath request =
          (true, Some (Api.Send 403)))
    /\ (forall handled cmd,
          Api.request_handler API_BASE_PATH termWebApiPath request =
            (handled, Some (Api.Run cmd)) ->
          handled = true
          /\ Api.url request = API_BASE_PATH ++ termWebApiPath
          /\ Api.apiAuthenticate request = true
          /\ endsWith cmd LF = true
          /\ exists p,
               Api.getParam (Api.parameters request) "line" (Api.method_is_put request)
                 = Some p
               /\ Api.parameter_value p <> ""
               /\ (cmd = Api.parameter_value p \/ cmd = Api.parameter_value p ++ LF)).
Proof.
  intros base path request. unfold Api.request_handler.
  destruct (String.eqb_spec (base ++ path) (Api.url request)) as [Heq | Hne]; cbn [negb].
  - split; [intros Hother; congruence |]. split.
    + intros _ Hauth. now rewrite Hauth.
    + intros handled cmd.
      destruct (Api.apiAuthenticate request); cbn [negb]; [| discriminate].
      destruct (Api.getParam (Api.parameters request) "line" (Api.method_is_put request))
        as [p |]; [| discriminate].
      destruct (Api.parameter_value p) as [| c rest] eqn:Hvalue; [discriminate |].
      cbn [String.length Nat.eqb]. intros Hrun. injection Hrun as <- <-.
      destruct (terminated_line (String c rest)) as [Hends Hshape].
      repeat split; try congruence; try assumption.
      exists p. rewrite Hvalue. repeat split; [discriminate |].
      destruct Hshape as [[Hsent _] | [Hsent _]]; [left | right]; exact Hsent.
  - split; [reflexivity |]. split.
    + intros Hsame. congruence.
    + discriminate.
Qed.

Lemma api_fallback_runs_only_authenticated_witness :
  let request :=
    {| Api.url := "/api/cmd"; Api.method_is_put := true; Api.apiAuthenticate := true;
       Api.parameters :=
         [{| Api.parameter_name := "line"; Api.parameter_value := "ignored"; Api.isPost := false |};
          {| Api.parameter_name := "line"; Api.parameter_value := "help"; Api.isPost := true |}] |} in
  true = true
  /\ Api.url request = "/api/" ++ "cmd"
  /\ Api.apiAuthenticate request = true
  /\ endsWith ("help" ++ LF) LF = true
  /\ exists p,
       Api.getParam (Api.parameters request) "line" (Api.method_is_put request) = Some p
       /\ Api.parameter_value p <> ""
       /\ ("help" ++ LF = Api.parameter_value p \/ "help" ++ LF = Api.parameter_value p ++ LF).
Proof.
  cbn zeta.
  destruct (api_fallback_runs_only_authenticated "/api/" "cmd"
              {| Api.url := "/api/cmd"; Api.method_is_put := true; Api.apiAuthenticate := true;
                 Api.parameters :=
                   [{| Api.parameter_name := "line"; Api.parameter_value := "ignored";
                       Api.isPost := false |};
                    {| Api.parameter_name := "line"; Api.parameter_value := "help";
                       Api.isPost := true |}] |}) as (_ & _ & Hrun).
  exact (Hrun true ("help" ++ LF) eq_refl).
Defined.

(** ** Commands that keep to the status protocol, and one that does not *)

Lemma fold_left_print_pcb (tcp_debug_state_str : nat -> string)
    (pcbs : list Commands.tcp_pcb) (out : Sink) :
  fold_left (Commands.print_pcb tcp_debug_state_str) pcbs out =
    (out ++ map (fun pcb => Print (Commands.pcb_line tcp_debug_state_str pcb)) pcbs)%list.
Proof.
  revert out. induction pcbs as [| pcb pcbs IH]; intros out; cbn [fold_left map].
  - now rewrite app_nil_r.
  - rewrite IH. unfold Commands.print_pcb. now rewrite <- app_assoc.
Qed.

(** X19: [netstat] writes one line per TCP control block, the active ones
    first, then those in TIME-WAIT, then the bound ones, each list in its own
    order, and nothing else: no status marker follows, and with no control
    block at all nothing is written. *)
Theorem netstat_writes_one_line_per_pcb :
  forall (tcp_debug_state_str : nat -> string)
         (tcp_active_pcbs tcp_tw_pcbs tcp_bound_pcbs : list Commands.tcp_pcb)
         (ctx : Commands.CommandContext) (w : Dns.World),
    Dns.sink (Commands.netstat tcp_debug_state_str
                tcp_active_pcbs tcp_tw_pcbs tcp_bound_pcbs ctx w) =
      (Dns.sink w
         ++ map (fun pcb => Print (Commands.pcb_line tcp_debug_state_str pcb))
              (tcp_active_pcbs ++ tcp_tw_pcbs ++ tcp_bound_pcbs))%list.
Proof.
  intros str active tw bound ctx w.
  unfold Commands.netstat. cbn [Dns.sink Dns.set_sink fold_left].
  rewrite !fold_left_print_pcb, !map_app. now rewrite <- !app_assoc.
Qed.

(** X20: [mfln_probe] always ends in exactly one status marker and writes
    nothing else. The requested length is converted to [uint16_t] before
    the probe, so two values that agree modulo 65536 give the same outcome;
    with the wrong number of arguments the outcome is the usage error
    whatever the probe would answer. *)
Theorem mfln_probe_truncates_request :
  forall (url_host : string -> string) (url_port : string -> Z) (atol : string -> Z)
         (probe probe' : string -> Z -> Z -> bool)
         (command url value value' : string) (args : list string) (w : Dns.World),
    (atol value mod 65536 = atol value' mod 65536)%Z ->
    Commands.mfln_probe url_host url_port atol probe
      {| Commands.argv := [command; url; value] |} w =
    Commands.mfln_probe url_host url_port atol probe
      {| Commands.argv := [command; url; value'] |} w
    /\ (exists status,
          Observed.is_status status
          /\ Dns.sink (Commands.mfln_probe url_host url_port atol probe
                         {| Commands.argv := [command; url; value] |} w) =
               (Dns.sink w ++ [status])%list)
    /\ (List.length args <> 3 ->
        Commands.mfln_probe url_host url_port atol probe {| Commands.argv := args |} w =
          Commands.mfln_probe url_host url_port atol probe' {| Commands.argv := args |} w
        /\ Dns.sink (Commands.mfln_probe url_host url_port atol probe
                       {| Commands.argv := args |} w) =
             (Dns.sink w ++ [Error "<url> <value>"])%list).
Proof.
  intros host port atol probe probe' command url value value' args w Hsame.
  unfold Commands.mfln_probe, Printf.u16.
  cbn [Commands.argv List.length Nat.eqb negb nth].
  rewrite Hsame. split; [reflexivity |]. split.
  - destruct (probe (host url) (port url) (atol value' mod 65536)%Z);
      eexists; (split; [| reflexivity]); exact I.
  - intros Hargc.
    destruct (Nat.eqb_spec (List.length args) 3) as [Heq | _]; [contradiction |].
    cbn [negb]. split; reflexivity.
Qed.

Lemma mfln_probe_truncates_request_witness :
  let probe := fun (_ : string) (_ : Z) (len : Z) => (len =? 512)%Z in
  let atol := fun s : string => if String.eqb s "512" then 512%Z else 66048%Z in
  Commands.mfln_probe (fun u => u) (fun _ => 443%Z) atol probe
    {| Commands.argv := ["MFLN.PROBE"; "https://example.com"; "66048"] |} Dns.idle =
  Commands.mfln_probe (fun u => u) (fun _ => 443%Z) atol probe
    {| Commands.argv := ["MFLN.PROBE"; "https://example.com"; "512"] |} Dns.idle.
Proof.
  cbn zeta.
  destruct (mfln_probe_truncates_request (fun u => u) (fun _ => 443%Z)
              (fun s : string => if String.eqb s "512" then 512%Z else 66048%Z)
              (fun (_ : string) (_ : Z) (len : Z) => (len =? 512)%Z)
              (fun (_ : string) (_ : Z) (_ : Z) => false)
              "MFLN.PROBE" "https://example.com" "66048" "512" [] Dns.idle eq_refl)
    as (Hsame & _).
  exact Hsame.
Defined.

Lemma fold_left_print_layout (regions : list Commands.Layout.t) (out : Sink) :
  fold_left (fun out layout => Commands.print_layout layout out) regions out =
    (out ++ map (fun layout => Print (Commands.layout_row layout)) regions)%list.
Proof.
  revert out. induction regions as [| x regions IH]; intros out; cbn [fold_left map].
  - now rewrite app_nil_r.
  - rewrite IH. unfold Commands.print_layout. now rewrite <- app_assoc.
Qed.

(** What [storage] writes: the chip data, one row per region of its table
    from the lowest address up, and OK. *)
Lemma storage_output (f : Commands.Flash) (ctx : Commands.CommandContext) (w : Dns.World) :
  Dns.sink (Commands.storage f ctx w) =
    (Dns.sink w
       ++ [Print ("flash chip ID: 0x" ++ Printf.hex 6 (Commands.getFlashChipId f) ++ LF);
           Print ("speed: " ++ Printf.unsigned (Commands.getFlashChipSpeed f) ++ LF);
           Print ("mode: " ++ Commands.getFlashChipMode f ++ LF);
           Print ("size: " ++ Printf.unsigned (Commands.getFlashChipRealSize f)
                    ++ " (SPI), " ++ Printf.unsigned (Commands.getFlashChipSize f)
                    ++ " (SDK)" ++ LF)]
       ++ map (fun layout => Print (Commands.layout_row layout))
            (Commands.Layouts._list (Commands.storage_layouts f))
       ++ [OK])%list.
Proof.
  unfold Commands.storage, Commands.Layouts.foreach, terminalOK.
  cbn [Dns.sink Dns.set_sink].
  rewrite fold_left_print_layout. rewrite <- !app_assoc. reflexivity.
Qed.
